(** * flowjax bijections: Permute, Flip, Chain and the block autoregressive network

    A shallow embedding of [flowjax/bijections/utils.py] and
    [flowjax/bijections/block_autoregressive_network.py].

    Conventions of the embedding.
    - A JAX scalar is a [float]: a real number, or one of the three IEEE
      special values.  The special values follow IEEE 754, and so does
      the range of binary32, the precision JAX computes in by default:
      [exp] and products underflow to zero and overflow to infinity.
      These two decide the behaviour of [logmatmulexp] on entries equal
      to minus infinity and on entries far below the maximum of their
      row or column.  Rounding inside the range, the overflow of a sum
      and signed zeros are left out.
    - A Python call returns a [result]: a value, or the exception raised.
    - A one-dimensional array is a list, a rank-3 array a list of blocks,
      each block a list of rows. *)

From Stdlib Require Import Reals Lra Lia List ZArith Bool Arith.
From Stdlib Require String.
Import String.StringSyntax.
Delimit Scope string_scope with string.
From Stdlib Require Import Permutation Sorted FinFun.
Import ListNotations.

Set Implicit Arguments.

(** ** Exceptions and results *)

Inductive exn : Type :=
| AssertionError
| NotImplementedError (msg : String.string)
| IndexError
| ZeroDivisionError
| ShapeError.   (* what JAX raises on incompatible or zero-size shapes *)

Inductive result (A : Type) : Type :=
| Ok (a : A)
| Raise (e : exn).

Arguments Ok {A} a.
Arguments Raise {A} e.

Definition bind {A B : Type} (r : result A) (k : A -> result B) : result B :=
  match r with
  | Ok a => k a
  | Raise e => Raise e
  end.

Definition fmap {A B : Type} (f : A -> B) (r : result A) : result B :=
  bind r (fun a => Ok (f a)).

Declare Scope result_scope.
Delimit Scope result_scope with result.
Notation "x <- r ;; k" := (bind r (fun x => k))
  (at level 61, r at next level, right associativity) : result_scope.
Notation "' p <- r ;; k" := (bind r (fun p => k))
  (at level 61, p pattern, r at next level, right associativity) : result_scope.

(** ** Scalars *)

Inductive float : Type :=
| Fin (r : R)
| PInf
| NInf
| NaN.

Definition is_fin (v : float) : bool :=
  match v with Fin _ => true | _ => false end.

(** A log-magnitude: a real number or minus infinity (the log of zero). *)
Definition is_logmag (v : float) : bool :=
  match v with Fin _ | NInf => true | _ => false end.

Module Float.

(** The range of binary32.  A result whose magnitude is at most
    [underflow], half the smallest subnormal number, rounds to zero; a
    result that reaches [overflow], the largest finite number and half
    a unit in its last place, rounds to an infinity. *)
Definition underflow : R := / 2 ^ 150.
Definition overflow : R := 2 ^ 128 - 2 ^ 103.

(** The smallest normal number: from here on a result keeps its full
    precision. *)
Definition smallest_normal : R := / 2 ^ 126.

Definition range (r : R) : float :=
  if Rle_dec overflow r then PInf
  else if Rle_dec r (- overflow) then NInf
  else if Rle_dec (Rabs r) underflow then Fin 0
  else Fin r.

Definition add (u v : float) : float :=
  match u, v with
  | NaN, _ | _, NaN => NaN
  | PInf, NInf | NInf, PInf => NaN
  | PInf, _ | _, PInf => PInf
  | NInf, _ | _, NInf => NInf
  | Fin a, Fin b => Fin (a + b)
  end.

Definition opp (v : float) : float :=
  match v with
  | Fin a => Fin (- a)
  | PInf => NInf
  | NInf => PInf
  | NaN => NaN
  end.

Definition sub (u v : float) : float := add u (opp v).

(** The sign of a real: [Gt] positive, [Eq] zero, [Lt] negative. *)
Definition sign (a : R) : comparison :=
  if Rlt_dec 0 a then Gt else if Rlt_dec a 0 then Lt else Eq.

Definition scale_inf (s : comparison) (pos : bool) : float :=
  match s with
  | Eq => NaN
  | Gt => if pos then PInf else NInf
  | Lt => if pos then NInf else PInf
  end.

(** A product, its finite value brought into a range by [rnd]. *)
Definition mul_in (rnd : R -> float) (u v : float) : float :=
  match u, v with
  | NaN, _ | _, NaN => NaN
  | Fin a, Fin b => rnd (a * b)%R
  | Fin a, PInf | PInf, Fin a => scale_inf (sign a) true
  | Fin a, NInf | NInf, Fin a => scale_inf (sign a) false
  | PInf, PInf | NInf, NInf => PInf
  | PInf, NInf | NInf, PInf => NInf
  end.

Definition exp_in (rnd : R -> float) (v : float) : float :=
  match v with
  | Fin a => rnd (Rtrigo_def.exp a)
  | PInf => PInf
  | NInf => Fin 0
  | NaN => NaN
  end.

Definition mul : float -> float -> float := mul_in range.

Definition exp : float -> float := exp_in range.

Definition log (v : float) : float :=
  match v with
  | Fin a =>
      match sign a with
      | Gt => Fin (ln a)
      | Eq => NInf
      | Lt => NaN
      end
  | PInf => PInf
  | NInf => NaN
  | NaN => NaN
  end.

Definition tanh (v : float) : float :=
  match v with
  | Fin a => Fin (Rtrigo_def.tanh a)
  | PInf => Fin 1
  | NInf => Fin (-1)
  | NaN => NaN
  end.

(** [max] as JAX reduces with it: a NaN operand gives NaN. *)
Definition max (u v : float) : float :=
  match u, v with
  | NaN, _ | _, NaN => NaN
  | PInf, _ | _, PInf => PInf
  | NInf, w | w, NInf => w
  | Fin a, Fin b => Fin (Rmax a b)
  end.

End Float.

(** The product and the exponential on the extended reals, as the
    formulas of the specification read: no result leaves a range. *)
Module Exact.

Definition mul : float -> float -> float := Float.mul_in Fin.

Definition exp : float -> float := Float.exp_in Fin.

End Exact.

(** ** One-dimensional arrays and integer indexing *)

Definition arange (n : nat) : list Z := map Z.of_nat (seq 0 n).

(** [x[i]] for one integer [i] taken from an index array, on a non-empty
    [x]: a negative index counts from the end, and an index still out of
    range is clamped to the nearest valid position, as JAX does when it
    gathers. *)
Definition getitem (x : list float) (i : Z) : float :=
  let n := Z.of_nat (length x) in
  let i := if (i <? 0)%Z then (i + n)%Z else i in
  nth (Z.to_nat (Z.max 0 (Z.min i (n - 1)))) x NaN.

(** The entries of a non-empty [x] at the indices [p]. *)
Definition gather (x : list float) (p : list Z) : list float :=
  map (getitem x) p.

(** [x[p]] for an index array [p]: JAX refuses to index into an axis of
    size zero, unless no index is asked for. *)
Definition take (x : list float) (p : list Z) : result (list float) :=
  match x, p with
  | [], _ :: _ => Raise IndexError
  | _, _ => Ok (gather x p)
  end.

(** [jnp.flip] of a one-dimensional array. *)
Definition flip (x : list float) : list float := rev x.

(** [a.sort()]: the entries in ascending order. *)
Fixpoint insert (v : Z) (l : list Z) : list Z :=
  match l with
  | [] => [v]
  | h :: t => if (v <=? h)%Z then v :: h :: t else h :: insert v t
  end.

Definition sort (l : list Z) : list Z := fold_right insert [] l.

(** [jnp.argsort]: the positions of the entries, listed by ascending entry;
    equal entries keep their order. *)
Fixpoint insert_key (e : Z * Z) (l : list (Z * Z)) : list (Z * Z) :=
  match l with
  | [] => [e]
  | h :: t => if (fst e <=? fst h)%Z then e :: h :: t else h :: insert_key e t
  end.

Definition sort_keys (l : list (Z * Z)) : list (Z * Z) :=
  fold_right insert_key [] l.

Definition argsort (l : list Z) : list Z :=
  map snd (sort_keys (combine l (arange (length l)))).

(** [(a == b).all()] on two arrays of the same length. *)
Definition all_equal (a b : list Z) : bool :=
  forallb (fun uv => (fst uv =? snd uv)%Z) (combine a b).

(** ** utils.py: Permute and Flip *)

(** Every index of [[0, dim)] occurs exactly once. *)
Definition is_permutation (p : list Z) : Prop :=
  forall i, In i (arange (length p)) -> count_occ Z.eq_dec p i = 1.

Definition condition : Type := option (list float).

Record Permute : Type := mkPermute {
  permutation : list Z;
  inverse_permutation : list Z
}.

Module Permute.

(** [Permute.__init__] *)
Definition init (permutation : list Z) : result Permute :=
  if all_equal (sort permutation) (arange (length permutation))
  then Ok (mkPermute permutation (argsort permutation))
  else Raise AssertionError.

Definition transform (self : Permute) (x : list float) (c : condition)
  : result (list float) :=
  take x (permutation self).

Definition transform_and_log_abs_det_jacobian
  (self : Permute) (x : list float) (c : condition)
  : result (list float * float) :=
  bind (take x (permutation self)) (fun y => Ok (y, Fin 0)).

Definition inverse (self : Permute) (y : list float) (c : condition)
  : result (list float) :=
  take y (inverse_permutation self).

End Permute.

Module Flip.

Definition transform (x : list float) (c : condition) : result (list float) :=
  Ok (flip x).

Definition transform_and_log_abs_det_jacobian (x : list float) (c : condition)
  : result (list float * float) :=
  Ok (flip x, Fin 0).

Definition inverse (y : list float) (c : condition) : result (list float) :=
  Ok (flip y).

End Flip.

(** ** utils.py: Chain *)

(** The bijection interface: what [Chain] calls on each child. *)
Record Bijection : Type := mkBijection {
  transform : list float -> condition -> result (list float);
  transform_and_log_abs_det_jacobian :
    list float -> condition -> result (list float * float);
  inverse : list float -> condition -> result (list float)
}.

(** [for item in items: state = body(item, state)], stopping at the first
    exception. *)
Fixpoint for_each {A S : Type} (items : list A) (body : A -> S -> result S)
  (state : S) : result S :=
  match items with
  | [] => Ok state
  | item :: rest => bind (body item state) (for_each rest body)
  end.

Module Chain.

Local Open Scope result_scope.

Definition transform (bijections : list Bijection) (x : list float)
  (c : condition) : result (list float) :=
  for_each bijections (fun bijection z => bijection.(transform) z c) x.

Definition transform_and_log_abs_det_jacobian (bijections : list Bijection)
  (x : list float) (c : condition) : result (list float * float) :=
  for_each bijections
    (fun bijection state =>
       let '(z, log_abs_det_jac) := state in
       '(z, log_abs_det_jac_i) <-
          bijection.(transform_and_log_abs_det_jacobian) z c ;;
       Ok (z, Float.add log_abs_det_jac log_abs_det_jac_i))
    (x, Fin 0).

Definition inverse (bijections : list Bijection) (z : list float)
  (c : condition) : result (list float) :=
  for_each (rev bijections) (fun bijection x => bijection.(inverse) x c) z.

End Chain.

(** The log-determinant of child [i], evaluated at the point the children
    before it produce from [x]. *)
Definition child_logdet (bijections : list Bijection) (x : list float)
  (c : condition) (i : nat) : result float :=
  match nth_error bijections i with
  | None => Raise IndexError
  | Some bijection =>
      bind (Chain.transform (firstn i bijections) x c)
        (fun z => fmap snd (bijection.(transform_and_log_abs_det_jacobian) z c))
  end.

(** [[f(item) for item in items]], stopping at the first exception. *)
Fixpoint collect {A B : Type} (f : A -> result B) (items : list A)
  : result (list B) :=
  match items with
  | [] => Ok []
  | item :: rest =>
      bind (f item) (fun b => bind (collect f rest) (fun bs => Ok (b :: bs)))
  end.

(** The children's log-determinants, first child first. *)
Definition child_logdets (bijections : list Bijection) (x : list float)
  (c : condition) : result (list float) :=
  collect (child_logdet bijections x c) (seq 0 (length bijections)).

(** A child keeps the bijection contract when both ways of computing the
    point agree. *)
Definition consistent (b : Bijection) : Prop :=
  forall x c,
    fmap fst (b.(transform_and_log_abs_det_jacobian) x c) = b.(transform) x c.

(** Scalar sum, accumulated from zero. *)
Definition fsum (l : list float) : float := fold_left Float.add l (Fin 0).

(** ** Rank-3 arrays *)

Definition matrix : Type := list (list float).
Definition array3 : Type := list matrix.

Definition ncols (m : matrix) : nat := length (hd [] m).

Definition column (j : nat) (m : matrix) : list float :=
  map (fun row => nth j row NaN) m.

(** [n] blocks of [a] rows of [b] entries. *)
Definition has_shape (n a b : nat) (x : array3) : Prop :=
  length x = n /\
  Forall (fun m => length m = a /\ Forall (fun row => length row = b) m) x.

Definition entry (x : array3) (i j k : nat) : float :=
  nth k (nth j (nth i x []) []) NaN.

(** [x.sum()] *)
Definition sum3 (x : array3) : float := fsum (concat (concat x)).

(** [jnp.full((n, a, b), v)] *)
Definition full (n a b : nat) (v : float) : array3 :=
  repeat (repeat (repeat v b) a) n.

(** Maximum over a non-empty axis. *)
Definition amax (v : list float) : float :=
  match v with
  | [] => NaN
  | h :: t => fold_left Float.max t h
  end.

Definition dot (u v : list float) : float :=
  fsum (map (fun p => Float.mul (fst p) (snd p)) (combine u v)).

(** The same sum of products on the extended reals. *)
Definition exact_dot (u v : list float) : float :=
  fsum (map (fun p => Exact.mul (fst p) (snd p)) (combine u v)).

Module Block.

(** [jnp.amax(x, -1, keepdims=True)] on one block: one value per row. *)
Definition amax_rows (x : matrix) : list float := map amax x.

(** [jnp.amax(y, -2, keepdims=True)] on one block: one value per column. *)
Definition amax_cols (y : matrix) : list float :=
  map (fun j => amax (column j y)) (seq 0 (ncols y)).

(** [op(m, shift)] with one shift per row (shape [(a, 1)]). *)
Definition with_rows (op : float -> float -> float) (m : matrix)
  (shift : list float) : matrix :=
  map (fun rs => map (fun v => op v (snd rs)) (fst rs)) (combine m shift).

(** [op(m, shift)] with one shift per column (shape [(1, c)]). *)
Definition with_cols (op : float -> float -> float) (m : matrix)
  (shift : list float) : matrix :=
  map (fun row => map (fun vs => op (fst vs) (snd vs)) (combine row shift)) m.

Definition exp (m : matrix) : matrix := map (map Float.exp) m.
Definition log (m : matrix) : matrix := map (map Float.log) m.

Definition matmul (x y : matrix) : matrix :=
  map (fun row => map (fun j => dot row (column j y)) (seq 0 (ncols y))) x.

(** Lines 127-130 of block_autoregressive_network.py on one block. *)
Definition logmatmulexp (x y : matrix) : matrix :=
  let x_shift := amax_rows x in
  let y_shift := amax_cols y in
  let xy :=
    log (matmul (exp (with_rows Float.sub x x_shift))
                (exp (with_cols Float.sub y y_shift))) in
  with_cols Float.add (with_rows Float.add xy x_shift) y_shift.

(** [log(exp(x) @ exp(y))] on one block, read on the extended reals. *)
Definition exact_exp (m : matrix) : matrix := map (map Exact.exp) m.

Definition exact_matmul (x y : matrix) : matrix :=
  map (fun row => map (fun j => exact_dot row (column j y))
                    (seq 0 (ncols y))) x.

Definition naive (x y : matrix) : matrix :=
  log (exact_matmul (exact_exp x) (exact_exp y)).

End Block.

(** [jnp.amax] on the last two axes, the elementwise operations and
    [jnp.matmul] all act block by block.  [jnp.matmul] treats the leading
    axis as a batch axis: equal sizes pair up, size one is repeated,
    anything else is a shape error. *)
Definition broadcast_batch (x y : array3) : result (list (matrix * matrix)) :=
  if length x =? length y then Ok (combine x y)
  else if length x =? 1 then Ok (map (fun m => (hd [] x, m)) y)
  else if length y =? 1 then Ok (map (fun m => (m, hd [] y)) x)
  else Raise ShapeError.

(** [jnp.matmul] contracts the rows of [x] with the columns of [y]: the
    rows of [x] must be as long as [y] has rows.  (A block without rows
    shows no row length and is read with the one that fits.) *)
Definition contracts (xy : matrix * matrix) : bool :=
  forallb (fun row => length row =? length (snd xy)) (fst xy).

(** [jnp.amax] raises on an axis of size zero: the contracted axis must
    not be empty. *)
Definition reducible (xy : matrix * matrix) : bool :=
  1 <=? length (snd xy).

Local Open Scope result_scope.

(** [logmatmulexp]: the exceptions JAX raises on the shapes, then lines
    127-130 on every pair of blocks. *)
Definition logmatmulexp (x y : array3) : result array3 :=
  pairs <- broadcast_batch x y ;;
  if forallb reducible pairs && forallb contracts pairs
  then Ok (map (fun xy => Block.logmatmulexp (fst xy) (snd xy)) pairs)
  else Raise ShapeError.

(** The reference of the specification, [log(exp(x) @ exp(y))] block by
    block, read on the extended reals. *)
Definition log_matmul_exp (x y : array3) : result array3 :=
  pairs <- broadcast_batch x y ;;
  if forallb contracts pairs
  then Ok (map (fun xy => Block.naive (fst xy) (snd xy)) pairs)
  else Raise ShapeError.

(** *** Arrays on which the shifts are finite

    The shifts are maxima; they are finite when every entry is a
    log-magnitude and every reduced row or column holds a finite one. *)

Definition log_magnitudes (v : list float) : bool :=
  forallb is_logmag v && existsb is_fin v.

Definition rows_finite_max (m : matrix) : bool := forallb log_magnitudes m.

Definition cols_finite_max (m : matrix) : bool :=
  forallb (fun j => log_magnitudes (column j m)) (seq 0 (ncols m)).

Definition rectangular (m : matrix) : bool :=
  forallb (fun row => length row =? ncols m) m.

(** *** Arrays on which no product underflows

    A product of two shifted exponentials loses precision, and then its
    value, once it falls below the smallest normal number. *)

Definition normal_pair (s t : R) (uv : float * float) : Prop :=
  match uv with
  | (Fin a, Fin b) =>
      (Float.smallest_normal
       <= Rtrigo_def.exp (a - s) * Rtrigo_def.exp (b - t))%R
  | _ => True
  end.

(** Every product that the contraction of [row] with [col] forms from
    two finite entries stays in the normal range. *)
Definition products_normal (row col : list float) : Prop :=
  forall s t, amax row = Fin s -> amax col = Fin t ->
    Forall (normal_pair s t) (combine row col).


(** Every finite entry of [row] is close enough to the maximum of the row
    for its shifted exponential to stay in the normal range. *)
Definition spread_normal (row : list float) : Prop :=
  forall s, amax row = Fin s ->
    Forall (fun u => match u with
                     | Fin a => (Float.smallest_normal
                                 <= Rtrigo_def.exp (a - s))%R
                     | _ => True
                     end) row.

(** All finite entries of [v] are one and the same: a sufficient reason
    for no shifted exponential to underflow. *)
Definition flat (v : list float) : Prop :=
  exists u0, Forall (fun u => u = NInf \/ u = u0) v.

(** *** The exact values behind the log-magnitudes *)

(** [exp] of a log-magnitude, as a real number. *)
Definition magnitude (v : float) : R :=
  match v with
  | Fin a => Rtrigo_def.exp a
  | _ => 0%R
  end.

Definition rsum (l : list R) : R := fold_right Rplus 0%R l.

Definition rdot (u v : list R) : R :=
  rsum (map (fun p => (fst p * snd p)%R) (combine u v)).

(** *** One entry of the result, three ways *)

(** As the algorithm is worded: shift the row by its maximum and the
    column by its maximum, exponentiate, multiply and sum, take the log,
    add both shifts back. *)
Definition shifted_entry (row col : list float) : float :=
  let row_max := amax row in
  let col_max := amax col in
  Float.add
    (Float.add
       (Float.log
          (dot (map (fun v => Float.exp (Float.sub v row_max)) row)
               (map (fun v => Float.exp (Float.sub v col_max)) col)))
       row_max)
    col_max.

(** The reference: exponentiate, multiply and sum, take the log, on the
    extended reals. *)
Definition naive_entry (row col : list float) : float :=
  Float.log (exact_dot (map Exact.exp row) (map Exact.exp col)).

(** The log of the exact sum of products of magnitudes. *)
Definition exact_entry (row col : list float) : float :=
  Float.log (Fin (rdot (map magnitude row) (map magnitude col))).

(** The block of exact entries. *)
Definition exact_block (x y : matrix) : matrix :=
  map (fun row => map (fun j => exact_entry row (column j y)) (seq 0 (ncols y)))
    x.

(** *** Sample blocks *)

(** Zeros: every magnitude is one. *)
Definition ones : matrix := [[Fin 0; Fin 0]; [Fin 0; Fin 0]].

(** The second column holds only minus infinity. *)
Definition dead_column : matrix := [[Fin 0; NInf]; [Fin 0; NInf]].

(** The log of the identity matrix, as an activation layer yields it. *)
Definition log_identity : matrix := [[Fin 0; NInf]; [NInf; Fin 0]].


(** ** block_autoregressive_network.py: _3d_log_det *)

(** [vals.reshape(n, d)] *)
Definition reshape (vals : list float) (n d : nat) : result matrix :=
  if n * d =? length vals
  then Ok (map (fun i => firstn d (skipn (i * d) vals)) (seq 0 n))
  else Raise ShapeError.

Fixpoint set_nth {A : Type} (i : nat) (v : A) (l : list A) : list A :=
  match l, i with
  | [], _ => []
  | _ :: t, 0 => v :: t
  | h :: t, S i' => h :: set_nth i' v t
  end.

(** [m.at[j, j].set(vs[j])] for every [j] in [arange(d)]. *)
Definition set_diagonal (d : nat) (m : matrix) (vs : list float) : matrix :=
  fold_left
    (fun m j => set_nth j (set_nth j (nth j vs NaN) (nth j m [])) m)
    (seq 0 d) m.

(** [a.at[:, arange(d), arange(d)].set(v)] *)
Definition at_diagonal_set (d : nat) (a : array3) (v : matrix) : array3 :=
  map (fun mv => set_diagonal d (fst mv) (snd mv)) (combine a v).

Definition _3d_log_det (vals : list float) (n_blocks : nat) : result array3 :=
  if n_blocks =? 0 then Raise ZeroDivisionError
  else
    let d := length vals / n_blocks in
    let log_det := full n_blocks d d NInf in
    v <- reshape vals n_blocks d ;;
    Ok (at_diagonal_set d log_det v).

(** ** block_autoregressive_network.py: the network *)

(** What a layer is called with and returns: the point and the layer's
    block Jacobian as a rank-3 array of log-magnitudes. *)
Definition Callable : Type :=
  list float -> condition -> result (list float * array3).

Section Network.

(** Collaborators that live outside these files. *)
Variable KeyArray : Type.
(** [subkey key num i] is [random.split(key, num)[i]]. *)
Variable subkey : KeyArray -> nat -> nat -> KeyArray.
(** [BlockAutoregressiveLinear(key, dim, block_shape, cond_dim)(x, condition)] *)
Variable linear_call : KeyArray -> nat -> nat * nat -> nat -> Callable.
(** [flowjax.bijections.tanh._tanh_log_grad] *)
Variable _tanh_log_grad : list float -> list float.

Definition split (key : KeyArray) (num : nat) : list KeyArray :=
  map (subkey key num) (seq 0 num).

(** [_TanhBNAF(n_blocks).__call__] *)
Definition _TanhBNAF (n_blocks : nat) : Callable :=
  fun x condition =>
    let log_det := _tanh_log_grad x in
    jac <- _3d_log_det log_det n_blocks ;;
    Ok (map Float.tanh x, jac).

(** An entry of [self.layers]: a masked-linear layer, recorded with the
    arguments it was constructed from, or the activation object. *)
Inductive layer : Type :=
| BlockAutoregressiveLinear (key : KeyArray) (dim : nat)
    (block_shape : nat * nat) (cond_dim : nat)
| Activation (activation : Callable).

Definition call (l : layer) : Callable :=
  match l with
  | BlockAutoregressiveLinear key dim block_shape cond_dim =>
      linear_call key dim block_shape cond_dim
  | Activation activation => activation
  end.

Record BlockAutoregressiveNetwork : Type := mkBlockAutoregressiveNetwork {
  dim : nat;
  depth : nat;
  layers : list layer;
  cond_dim : nat;
  block_dim : nat;
  activation : Callable
}.

(** [BlockAutoregressiveNetwork.__init__] *)
Definition BlockAutoregressiveNetwork_init (key : KeyArray)
  (dim cond_dim depth block_dim : nat) (activation : option Callable)
  : BlockAutoregressiveNetwork :=
  let activation :=
    match activation with
    | None => _TanhBNAF dim
    | Some activation => activation
    end in
  let layers :=
    if depth =? 0
    then [BlockAutoregressiveLinear key dim (1, 1) cond_dim]
    else
      let keys := split key (depth + 1) in
      let block_shapes :=
        [(block_dim, 1)] ++ repeat (block_dim, block_dim) (depth - 1)
          ++ [(1, block_dim)] in
      let cond_dims := [cond_dim] ++ repeat 0 depth in
      let layers :=
        fold_left
          (fun layers kbc =>
             let '(key, block_shape, cd) := kbc in
             layers ++ [BlockAutoregressiveLinear key dim block_shape cd;
                        Activation activation])
          (combine (combine keys block_shapes) cond_dims) [] in
      removelast layers in
  mkBlockAutoregressiveNetwork dim depth layers cond_dim block_dim activation.

(** [BlockAutoregressiveNetwork.transform] *)
Definition BlockAutoregressiveNetwork_transform
  (self : BlockAutoregressiveNetwork) (x : list float) (c : condition)
  : result (list float) :=
  match layers self with
  | [] => Raise IndexError
  | first :: rest =>
      x <- fmap fst (call first x c) ;;
      for_each rest (fun layer x => fmap fst (call layer x None)) x
  end.

(** The fold of lines 107-109: start from the last Jacobian and compose
    the earlier ones into it, latest first. *)
Definition fold_log_dets (log_det_3ds : list array3) : result array3 :=
  let logdet := last log_det_3ds [] in
  for_each (rev (removelast log_det_3ds))
    (fun ld logdet => logmatmulexp logdet ld) logdet.

(** [BlockAutoregressiveNetwork.transform_and_log_abs_det_jacobian] *)
Definition BlockAutoregressiveNetwork_transform_and_log_abs_det_jacobian
  (self : BlockAutoregressiveNetwork) (x : list float) (c : condition)
  : result (list float * float) :=
  match layers self with
  | [] => Raise IndexError
  | first :: rest =>
      '(x, log_det_3d_0) <- call first x c ;;
      let log_det_3ds := [log_det_3d_0] in
      '(x, log_det_3ds) <-
        for_each rest
          (fun layer state =>
             let '(x, log_det_3ds) := state in
             '(x, log_det_3d) <- call layer x None ;;
             Ok (x, log_det_3ds ++ [log_det_3d]))
          (x, log_det_3ds) ;;
      logdet <- fold_log_dets log_det_3ds ;;
      Ok (x, sum3 logdet)
  end.

Definition inversion_message : String.string :=
  "This transform would require numerical methods for inversion."%string.

(** [inverse] and [inverse_and_log_abs_det_jacobian] take any arguments;
    each returns the instance as the call leaves it and the outcome. *)
Definition BlockAutoregressiveNetwork_inverse {Args : Type}
  (self : BlockAutoregressiveNetwork) (args : Args)
  : BlockAutoregressiveNetwork * result (list float) :=
  (self, Raise (NotImplementedError inversion_message)).

Definition BlockAutoregressiveNetwork_inverse_and_log_abs_det_jacobian
  {Args : Type} (self : BlockAutoregressiveNetwork) (args : Args)
  : BlockAutoregressiveNetwork * result (list float * float) :=
  (self, Raise (NotImplementedError inversion_message)).

(** *** The forward pass and the fold, as the specification words them *)

(** The layers after the first, each called without a condition; every
    layer also yields its block Jacobian. *)
Fixpoint forward_rest (ls : list layer) (x : list float)
  : result (list float * list array3) :=
  match ls with
  | [] => Ok (x, [])
  | l :: rest =>
      '(x', jac) <- call l x None ;;
      '(y, jacs) <- forward_rest rest x' ;;
      Ok (y, jac :: jacs)
  end.

Definition forward (ls : list layer) (x : list float) (c : condition)
  : result (list float * list array3) :=
  match ls with
  | [] => Raise IndexError
  | first :: rest =>
      '(x', jac) <- call first x c ;;
      '(y, jacs) <- forward_rest rest x' ;;
      Ok (y, jac :: jacs)
  end.

(** Compose the earlier Jacobians, latest first, into the running one. *)
Fixpoint compose_into (running : array3) (earlier_latest_first : list array3)
  : result array3 :=
  match earlier_latest_first with
  | [] => Ok running
  | jac :: rest =>
      running' <- logmatmulexp running jac ;;
      compose_into running' rest
  end.

Definition fold_right_to_left (jacs : list array3) : result array3 :=
  match rev jacs with
  | [] => Ok []
  | last_jac :: earlier => compose_into last_jac earlier
  end.

(** The layer stack the specification describes for [depth > 0]. *)
Fixpoint intersperse (sep : layer) (ls : list layer) : list layer :=
  match ls with
  | [] => []
  | [l] => [l]
  | l :: rest => l :: sep :: intersperse sep rest
  end.

Definition is_linear (l : layer) : bool :=
  match l with BlockAutoregressiveLinear _ _ _ _ => true | _ => false end.

Definition layer_block_shape (l : layer) : option (nat * nat) :=
  match l with
  | BlockAutoregressiveLinear _ _ block_shape _ => Some block_shape
  | Activation _ => None
  end.

Definition layer_cond_dim (l : layer) : option nat :=
  match l with
  | BlockAutoregressiveLinear _ _ _ cond_dim => Some cond_dim
  | Activation _ => None
  end.

Definition layer_dim (l : layer) : option nat :=
  match l with
  | BlockAutoregressiveLinear _ dim _ _ => Some dim
  | Activation _ => None
  end.

End Network.

(** The network, [Permute] and [Flip] as chain children. *)
Definition Permute_bijection (p : Permute) : Bijection :=
  mkBijection (Permute.transform p)
    (Permute.transform_and_log_abs_det_jacobian p) (Permute.inverse p).

Definition Flip_bijection : Bijection :=
  mkBijection Flip.transform Flip.transform_and_log_abs_det_jacobian
    Flip.inverse.

(** A permutation followed by a flip, as the flows chain them. *)
Definition sample_chain : list Bijection :=
  [Permute_bijection (mkPermute [2; 0; 1]%Z [1; 2; 0]%Z); Flip_bijection].


(** * The rest of utils.py and block_autoregressive_network.py, and flows.py *)

From Stdlib Require Ascii.

(** ** Chains and networks as chain children *)

(** A [Chain] is itself a bijection. *)
Definition Chain_bijection (bijections : list Bijection) : Bijection :=
  mkBijection (Chain.transform bijections)
    (Chain.transform_and_log_abs_det_jacobian bijections)
    (Chain.inverse bijections).


(** Jacobians of consecutive layers, first layer first: each block maps
    [a] inputs to [c] outputs through the widths in between, every layer
    with at least one output per block. *)
Fixpoint chained (n a c : nat) (jacs : list array3) : Prop :=
  match jacs with
  | [] => a = c
  | jac :: rest =>
      exists m, 0 < m /\ has_shape n m a jac /\ chained n m c rest
  end.

(** A stand-in for a masked-linear layer with the shapes of one: zeros
    for the point and for every entry of the Jacobian. *)
Definition zeros_linear_call (key : nat) (dim : nat) (block_shape : nat * nat)
  (cond_dim : nat) : Callable :=
  fun x c =>
    Ok (repeat (Fin 0) (dim * fst block_shape),
        full dim (fst block_shape) (snd block_shape) (Fin 0)).

(** [Permute(jnp.flip(jnp.arange(n)))]: the permutation that reverses. *)
Definition reversal (n : nat) : list Z := rev (arange n).

(** ** utils.py: intertwine_permute *)

(** What [intertwine_permute] and [default_permute_strategy] can raise:
    the TypeError of a call with wrong arguments, the KeyError of a
    missing dictionary key, the ValueError of an array function, and the
    exceptions of the bijections. *)
Inductive raised : Type :=
| TypeError
| KeyError
| ValueError
| Inner (e : exn).

(** [str.lower].  Strings are byte strings; only the ASCII capitals change,
    which decides the two comparisons below as Python does: no other
    character has a lower case among the letters of "flip" and "random". *)
Definition lower_char (c : Ascii.ascii) : Ascii.ascii :=
  let n := Ascii.nat_of_ascii c in
  if (65 <=? n) && (n <=? 90) then Ascii.ascii_of_nat (n + 32) else c.

Fixpoint lower (s : String.string) : String.string :=
  match s with
  | String.EmptyString => String.EmptyString
  | String.String c rest => String.String (lower_char c) (lower rest)
  end.

(** [for item in items: state = body(item, state)] where the body may
    raise. *)
Fixpoint loop {A S : Type} (items : list A) (body : A -> S -> raised + S)
  (state : S) : raised + S :=
  match items with
  | [] => inr state
  | item :: rest =>
      match body item state with
      | inl e => inl e
      | inr state' => loop rest body state'
      end
  end.

Section IntertwinePermute.

Variable KeyArray : Type.

(** Lines 100-103: [len(bijection_list)] stacked copies of
    [jnp.arange(dim)], each row shuffled by [random.permutation]; the
    rows, or what these calls raise. *)
Variable shuffled_rows :
  option KeyArray -> option nat -> nat -> raised + list (list Z).

(** [list.extend] called with two arguments. *)
Definition extend_two (bijections : list Bijection) (b : Bijection)
  (p : Permute) : raised + list Bijection :=
  inl TypeError.

(** The value returned, [None] when the function falls off its end. *)
Definition intertwine_permute (bijection_list : list Bijection)
  (strategy : String.string) (key : option KeyArray) (dim : option nat)
  : raised + option (list Bijection) :=
  let bijections : list Bijection := [] in
  if String.eqb (lower strategy) "flip" then
    let bijections :=
      fold_left (fun bijections b => bijections ++ [b; Flip_bijection])
        bijection_list bijections in
    inr (Some (removelast bijections))
  else if String.eqb (lower strategy) "random" then
    match shuffled_rows key dim (length bijection_list) with
    | inl e => inl e
    | inr permutations =>
        let bijections : list Bijection := [] in
        match
          loop (combine bijection_list permutations)
            (fun bp bijections =>
               match Permute.init (snd bp) with
               | Raise e => inl (Inner e)
               | Ok p => extend_two bijections (fst bp) p
               end)
            bijections
        with
        | inl e => inl e
        | inr bijections => inr (Some (removelast bijections))
        end
    end
  else inr None.

End IntertwinePermute.

(** ** flows.py: default_permute_strategy *)

Definition default_permute_strategy (dim : Z) : raised + String.string :=
  if (dim <=? 2)%Z then
    if (dim =? 1)%Z then inr "none"%string
    else if (dim =? 2)%Z then inr "flip"%string
    else inl KeyError
  else inr "random"%string.


(** * Properties *)

(** ** Sorting *)

Section Sorting.

Lemma insert_perm v l : Permutation (insert v l) (v :: l).
Proof.
  induction l as [|h t IH]; simpl; [reflexivity|].
  destruct (v <=? h)%Z; [reflexivity|].
  rewrite IH. apply perm_swap.
Qed.

Lemma sort_perm l : Permutation (sort l) l.
Proof.
  induction l as [|h t IH]; simpl; [constructor|].
  rewrite insert_perm. now constructor.
Qed.

Lemma sort_length l : length (sort l) = length l.
Proof. apply Permutation_length, sort_perm. Qed.

Lemma insert_sorted v l :
  StronglySorted Z.le l -> StronglySorted Z.le (insert v l).
Proof.
  induction 1 as [|h t Hs IH Hh]; simpl.
  - repeat constructor.
  - destruct (Z.leb_spec v h).
    + constructor; [now constructor|].
      constructor; [assumption|].
      eapply Forall_impl; [|exact Hh]. intros; lia.
    + constructor; [assumption|].
      eapply Permutation_Forall; [symmetry; apply insert_perm|].
      constructor; [lia|assumption].
Qed.

Lemma sort_sorted l : StronglySorted Z.le (sort l).
Proof.
  induction l; simpl; [constructor|]. now apply insert_sorted.
Qed.

(** Two ascending arrangements of the same entries are the same list. *)
Lemma sorted_perm_unique l1 :
  forall l2, StronglySorted Z.le l1 -> StronglySorted Z.le l2 ->
             Permutation l1 l2 -> l1 = l2.
Proof.
  induction l1 as [|a l1 IH]; intros l2 H1 H2 HP.
  - now apply Permutation_nil in HP.
  - destruct l2 as [|b l2].
    + symmetry in HP. now apply Permutation_nil in HP.
    + inversion H1 as [|? ? Hs1 Ha]; inversion H2 as [|? ? Hs2 Hb]; subst.
      assert (a = b) as ->.
      { assert (In a (b :: l2)) as Hi1
            by (eapply Permutation_in; [exact HP|now left]).
        assert (In b (a :: l1)) as Hi2
            by (eapply Permutation_in; [symmetry; exact HP|now left]).
        rewrite Forall_forall in Ha, Hb.
        destruct Hi1 as [->|Hi1]; [reflexivity|].
        destruct Hi2 as [->|Hi2]; [reflexivity|].
        apply Hb in Hi1. apply Ha in Hi2. lia. }
      f_equal. apply IH; try assumption.
      now apply Permutation_cons_inv in HP.
Qed.

Lemma iota_sorted n : forall s,
  StronglySorted Z.le (map Z.of_nat (seq s n)).
Proof.
  induction n as [|n IH]; intros s; simpl; constructor.
  - apply IH.
  - rewrite Forall_map, Forall_forall. intros k Hk.
    apply in_seq in Hk. lia.
Qed.

Lemma arange_sorted n : StronglySorted Z.le (arange n).
Proof. apply iota_sorted. Qed.

Lemma arange_length n : length (arange n) = n.
Proof. unfold arange. now rewrite length_map, length_seq. Qed.

Lemma arange_NoDup n : NoDup (arange n).
Proof.
  unfold arange. apply Injective_map_NoDup.
  - intros a b. apply Nat2Z.inj.
  - apply seq_NoDup.
Qed.

Lemma in_arange i n : In i (arange n) <-> (0 <= i < Z.of_nat n)%Z.
Proof.
  unfold arange. rewrite in_map_iff. split.
  - intros (k & <- & Hk). apply in_seq in Hk. lia.
  - intros H. exists (Z.to_nat i). split; [lia|]. apply in_seq. lia.
Qed.

Lemma nth_arange j n d : j < n -> nth j (arange n) d = Z.of_nat j.
Proof.
  intros H. unfold arange.
  rewrite nth_indep with (d' := Z.of_nat 0)
    by (now rewrite length_map, length_seq).
  rewrite map_nth, seq_nth by assumption. reflexivity.
Qed.

Lemma all_equal_true a : forall b,
  length a = length b -> all_equal a b = true -> a = b.
Proof.
  unfold all_equal.
  induction a as [|u a IH]; intros [|v b] Hl H; simpl in *;
    try discriminate; [reflexivity|].
  apply andb_prop in H as [Huv H]. apply Z.eqb_eq in Huv. subst v.
  f_equal. apply IH; [lia|assumption].
Qed.

Lemma all_equal_refl a : all_equal a a = true.
Proof.
  unfold all_equal. induction a; simpl; [reflexivity|].
  now rewrite Z.eqb_refl.
Qed.

Lemma sort_is_arange p :
  all_equal (sort p) (arange (length p)) = true <->
  Permutation p (arange (length p)).
Proof.
  split.
  - intros H. apply all_equal_true in H.
    + rewrite <- H. symmetry. apply sort_perm.
    + now rewrite sort_length, arange_length.
  - intros H.
    rewrite (sorted_perm_unique (sort_sorted p)
               (arange_sorted (length p))).
    + apply all_equal_refl.
    + now rewrite sort_perm.
Qed.

End Sorting.

(** ** Permute *)

Section PermuteFacts.

Lemma is_permutation_iff p :
  is_permutation p <-> Permutation p (arange (length p)).
Proof.
  split.
  - intros H. symmetry. apply NoDup_Permutation_bis.
    + apply arange_NoDup.
    + now rewrite arange_length.
    + intros i Hi. apply (count_occ_In Z.eq_dec). rewrite (H i Hi). lia.
  - intros H i Hi.
    rewrite (Permutation_count_occ Z.eq_dec) in H. rewrite H.
    apply NoDup_count_occ'; [apply arange_NoDup|assumption].
Qed.

Lemma init_accepts p :
  is_permutation p -> Permute.init p = Ok (mkPermute p (argsort p)).
Proof.
  intros H. unfold Permute.init.
  apply is_permutation_iff, sort_is_arange in H. now rewrite H.
Qed.

Lemma init_rejects p :
  ~ is_permutation p -> Permute.init p = Raise AssertionError.
Proof.
  intros H. unfold Permute.init.
  destruct (all_equal (sort p) (arange (length p))) eqn:E; [|reflexivity].
  exfalso. apply H. now apply is_permutation_iff, sort_is_arange.
Qed.

Lemma init_inv p P :
  Permute.init p = Ok P ->
  is_permutation p /\ P = mkPermute p (argsort p).
Proof.
  unfold Permute.init.
  destruct (all_equal (sort p) (arange (length p))) eqn:E; [|discriminate].
  intros [= <-]. split; [|reflexivity].
  now apply is_permutation_iff, sort_is_arange.
Qed.

(** Sorting pairs by key sorts the keys. *)
Lemma insert_key_fst e l :
  map fst (insert_key e l) = insert (fst e) (map fst l).
Proof.
  induction l as [|h t IH]; simpl; [reflexivity|].
  destruct (fst e <=? fst h)%Z; simpl; [reflexivity|]. now rewrite IH.
Qed.

Lemma sort_keys_fst l : map fst (sort_keys l) = sort (map fst l).
Proof.
  induction l as [|h t IH]; simpl; [reflexivity|].
  now rewrite insert_key_fst, IH.
Qed.

Lemma insert_key_perm e l : Permutation (insert_key e l) (e :: l).
Proof.
  induction l as [|h t IH]; simpl; [reflexivity|].
  destruct (fst e <=? fst h)%Z; [reflexivity|].
  rewrite IH. apply perm_swap.
Qed.

Lemma sort_keys_perm l : Permutation (sort_keys l) l.
Proof.
  induction l as [|h t IH]; simpl; [constructor|].
  rewrite insert_key_perm. now constructor.
Qed.

Lemma map_fst_combine (A B : Type) (a : list A) : forall (b : list B),
  length a = length b -> map fst (combine a b) = a.
Proof.
  induction a as [|u a IH]; intros [|v b] H; simpl in *;
    try discriminate; [reflexivity|].
  f_equal. apply IH. lia.
Qed.

(** A pair of the enumerated array: its position and the entry there. *)
Lemma in_enumerate (p : list Z) v i :
  In (v, i) (combine p (arange (length p))) ->
  exists k, k < length p /\ i = Z.of_nat k /\ nth k p 0%Z = v.
Proof.
  intros H. apply (In_nth _ _ (0%Z, 0%Z)) in H as (k & Hk & Hn).
  rewrite length_combine, arange_length, Nat.min_id in Hk.
  rewrite combine_nth in Hn by now rewrite arange_length.
  injection Hn as Hv Hi. exists k. repeat split; try assumption.
  rewrite nth_arange in Hi by assumption. now symmetry.
Qed.

Lemma argsort_length p : length (argsort p) = length p.
Proof.
  unfold argsort. rewrite length_map.
  rewrite (Permutation_length (sort_keys_perm _)).
  now rewrite length_combine, arange_length, Nat.min_id.
Qed.

(** [argsort] of a permutation is its inverse: entry [j] of the result
    is the position where the permutation holds [j]. *)
Lemma argsort_inverse p j :
  is_permutation p -> j < length p ->
  exists k, k < length p /\
            nth j (argsort p) 0%Z = Z.of_nat k /\
            nth k p 0%Z = Z.of_nat j.
Proof.
  intros Hp Hj.
  set (S := sort_keys (combine p (arange (length p)))).
  assert (length S = length p) as HS.
  { unfold S. rewrite (Permutation_length (sort_keys_perm _)).
    now rewrite length_combine, arange_length, Nat.min_id. }
  assert (map fst S = arange (length p)) as Hfst.
  { unfold S. rewrite sort_keys_fst, map_fst_combine
      by now rewrite arange_length.
    apply sorted_perm_unique;
      [apply sort_sorted|apply arange_sorted|].
    rewrite sort_perm. now apply is_permutation_iff. }
  destruct (nth j S (0%Z, 0%Z)) as [v i] eqn:E.
  assert (In (v, i) (combine p (arange (length p)))) as Hin.
  { eapply Permutation_in; [apply sort_keys_perm|].
    fold S. rewrite <- E. apply nth_In. lia. }
  apply in_enumerate in Hin as (k & Hk & -> & Hv).
  exists k. repeat split; [assumption| |].
  - unfold argsort. fold S.
    change 0%Z with (snd (0%Z, 0%Z)). now rewrite map_nth, E.
  - rewrite Hv.
    assert (nth j (map fst S) 0%Z = v) as <-.
    { change 0%Z with (fst (0%Z, 0%Z)). now rewrite map_nth, E. }
    rewrite Hfst. now apply nth_arange.
Qed.

Lemma getitem_in_range x k :
  k < length x -> getitem x (Z.of_nat k) = nth k x NaN.
Proof.
  intros H. unfold getitem.
  destruct (Z.ltb_spec (Z.of_nat k) 0); [lia|].
  f_equal. lia.
Qed.

Lemma gather_length x p : length (gather x p) = length p.
Proof. apply length_map. Qed.

Lemma gather_argsort_gather p x :
  is_permutation p -> length x = length p ->
  gather (gather x p) (argsort p) = x.
Proof.
  intros Hp Hl.
  apply nth_ext with (d := NaN) (d' := NaN).
  - now rewrite gather_length, argsort_length.
  - intros j Hj. rewrite gather_length, argsort_length in Hj.
    destruct (argsort_inverse Hp Hj) as (k & Hk & Hq & Hpk).
    unfold gather at 1.
    rewrite nth_indep with (d' := getitem (gather x p) 0%Z)
      by now rewrite length_map, argsort_length.
    rewrite map_nth, Hq.
    rewrite getitem_in_range by now rewrite gather_length.
    unfold gather.
    rewrite nth_indep with (d' := getitem x 0%Z)
      by now rewrite length_map.
    rewrite map_nth, Hpk.
    apply getitem_in_range. lia.
Qed.

(** Indexing raises only on an empty array asked for an entry. *)
Lemma take_same_length x p :
  length x = length p -> take x p = Ok (gather x p).
Proof. destruct x, p; try discriminate; reflexivity. Qed.

Lemma take_permuted x p :
  length x = length p -> take (gather x p) (argsort p) = Ok (gather (gather x p) (argsort p)).
Proof.
  intros H. apply take_same_length.
  now rewrite gather_length, argsort_length.
Qed.

End PermuteFacts.

(** C5. Constructing a [Permute] from an index array in which some index
    of [[0, dim)] is missing or repeated raises the assertion error of
    [__init__] (the specification's InvalidPermutationError), as for
    [[0,0,1]]; constructing it from a permutation of [[0, dim)] returns the
    instance. *)
Theorem Permute_init_validates (p : list Z) :
  (is_permutation p -> Permute.init p = Ok (mkPermute p (argsort p))) /\
  (~ is_permutation p -> Permute.init p = Raise AssertionError) /\
  Permute.init [0; 0; 1]%Z = Raise AssertionError.
Proof.
  split; [apply init_accepts|]. split; [apply init_rejects|]. reflexivity.
Qed.

Lemma Permute_init_validates_witness :
  Permute.init [2; 0; 1]%Z = Ok (mkPermute [2; 0; 1]%Z [1; 2; 0]%Z) /\
  Permute.init [0; 0; 1]%Z = Raise AssertionError.
Proof.
  split.
  - apply (proj1 (Permute_init_validates [2; 0; 1]%Z)).
    intros i Hi. simpl in Hi.
    destruct Hi as [<-|[<-|[<-|[]]]]; reflexivity.
  - apply (proj1 (proj2 (Permute_init_validates [0; 0; 1]%Z))).
    intros H. specialize (H 0%Z). simpl in H.
    assert (2 = 1) by (apply H; now left). discriminate.
Defined.

(** C6. For a valid permutation [p] and a vector [x] of the same
    dimension, the instance holds [argsort p] as its inverse permutation
    and [inverse (transform x) = x]; [Permute [2,0,1]] sends [[a,b,c]] to
    [[c,a,b]] and its inverse sends [[c,a,b]] back to [[a,b,c]]. *)
Theorem Permute_inverse_transform (p : list Z) (P : Permute)
  (x : list float) (c c' : condition) :
  Permute.init p = Ok P ->
  length x = length p ->
  inverse_permutation P = argsort p /\
  bind (Permute.transform P x c) (fun y => Permute.inverse P y c') = Ok x /\
  (forall u v w : float,
      let P3 := mkPermute [2; 0; 1]%Z (argsort [2; 0; 1]%Z) in
      Permute.init [2; 0; 1]%Z = Ok P3 /\
      Permute.transform P3 [u; v; w] c = Ok [w; u; v] /\
      Permute.inverse P3 [w; u; v] c = Ok [u; v; w]).
Proof.
  intros Hinit Hlen.
  apply init_inv in Hinit as [Hp ->]. simpl.
  split; [reflexivity|]. split.
  - unfold Permute.transform, Permute.inverse.
    cbn [permutation inverse_permutation].
    rewrite take_same_length by assumption. cbn [bind].
    rewrite take_permuted by assumption.
    f_equal. now apply gather_argsort_gather.
  - intros u v w. repeat split.
Qed.

Lemma Permute_inverse_transform_witness :
  bind (Permute.transform (mkPermute [1; 2; 0]%Z (argsort [1; 2; 0]%Z))
          [Fin 1; NInf; PInf] None)
       (fun y => Permute.inverse
                   (mkPermute [1; 2; 0]%Z (argsort [1; 2; 0]%Z)) y None)
  = Ok [Fin 1; NInf; PInf].
Proof.
  apply (@Permute_inverse_transform [1; 2; 0]%Z
           (mkPermute [1; 2; 0]%Z (argsort [1; 2; 0]%Z))
           [Fin 1; NInf; PInf] None None);
    reflexivity.
Defined.

(** C10. [Permute] and [Flip] never look at the condition: any two
    conditions give the same [transform], the same [inverse] and the same
    [transform_and_log_abs_det_jacobian]. *)
Theorem Permute_Flip_ignore_condition (P : Permute) (x : list float)
  (c1 c2 : condition) :
  (Permute.transform P x c1 = Permute.transform P x c2 /\
   Permute.inverse P x c1 = Permute.inverse P x c2 /\
   Permute.transform_and_log_abs_det_jacobian P x c1
   = Permute.transform_and_log_abs_det_jacobian P x c2) /\
  (Flip.transform x c1 = Flip.transform x c2 /\
   Flip.inverse x c1 = Flip.inverse x c2 /\
   Flip.transform_and_log_abs_det_jacobian x c1
   = Flip.transform_and_log_abs_det_jacobian x c2).
Proof. repeat split. Qed.


(** ** Loops in the result monad *)

Section Loops.

Context {A S : Type}.

Lemma bind_assoc {X Y Z : Type} (r : result X) (f : X -> result Y)
  (g : Y -> result Z) :
  bind (bind r f) g = bind r (fun x => bind (f x) g).
Proof. now destruct r. Qed.

Lemma bind_ext {X Y : Type} (r : result X) (f g : X -> result Y) :
  (forall x, f x = g x) -> bind r f = bind r g.
Proof. intros H. destruct r; simpl; [apply H|reflexivity]. Qed.

Lemma for_each_app (l1 l2 : list A) (body : A -> S -> result S) (s : S) :
  for_each (l1 ++ l2) body s = bind (for_each l1 body s) (for_each l2 body).
Proof.
  revert s. induction l1 as [|a l1 IH]; intros s; simpl; [reflexivity|].
  rewrite bind_assoc. apply bind_ext. intros s'. apply IH.
Qed.

Lemma collect_ext {B : Type} (f g : A -> result B) (items : list A) :
  (forall a, In a items -> f a = g a) -> collect f items = collect g items.
Proof.
  induction items as [|a items IH]; intros H; simpl; [reflexivity|].
  rewrite (H a) by now left.
  apply bind_ext. intros b. rewrite IH; [reflexivity|].
  intros a' Ha'. apply H. now right.
Qed.

Lemma collect_map {B C : Type} (h : C -> A) (f : A -> result B)
  (items : list C) :
  collect f (map h items) = collect (fun c => f (h c)) items.
Proof.
  induction items as [|a items IH]; simpl; [reflexivity|]. now rewrite IH.
Qed.

End Loops.

(** ** Chain *)

Section ChainFacts.

Variable c : condition.

Lemma Chain_transform_cons b bs x :
  Chain.transform (b :: bs) x c
  = (z <- b.(transform) x c ;; Chain.transform bs z c).
Proof. reflexivity. Qed.

Lemma Chain_inverse_cons b bs z :
  Chain.inverse (b :: bs) z c
  = (x <- Chain.inverse bs z c ;; b.(inverse) x c).
Proof.
  unfold Chain.inverse. simpl. rewrite for_each_app. simpl.
  apply bind_ext. intros x. now destruct (inverse b x c).
Qed.

Lemma child_logdet_succ b bs x z l i :
  b.(transform_and_log_abs_det_jacobian) x c = Ok (z, l) ->
  consistent b ->
  child_logdet (b :: bs) x c (S i) = child_logdet bs z c i.
Proof.
  intros Hb Hc. unfold child_logdet. simpl.
  destruct (nth_error bs i); [|reflexivity].
  rewrite Chain_transform_cons, <- Hc, Hb. reflexivity.
Qed.

Lemma child_logdets_cons b bs x z l :
  b.(transform_and_log_abs_det_jacobian) x c = Ok (z, l) ->
  consistent b ->
  child_logdets (b :: bs) x c
  = (ls <- child_logdets bs z c ;; Ok (l :: ls)).
Proof.
  intros Hb Hc. unfold child_logdets. simpl.
  unfold child_logdet at 1. simpl. rewrite Hb. simpl.
  rewrite <- seq_shift, collect_map.
  erewrite collect_ext; [reflexivity|].
  intros i _. now apply child_logdet_succ with (l := l).
Qed.

(** The loop of [transform_and_log_abs_det_jacobian], from any point and
    any accumulated log-determinant. *)
Lemma Chain_loop bs : forall x acc,
  Forall consistent bs ->
  for_each bs
    (fun bijection state =>
       let '(z, log_abs_det_jac) := state in
       '(z, log_abs_det_jac_i) <-
          bijection.(transform_and_log_abs_det_jacobian) z c ;;
       Ok (z, Float.add log_abs_det_jac log_abs_det_jac_i))
    (x, acc)
  = (z <- Chain.transform bs x c ;;
     ls <- child_logdets bs x c ;;
     Ok (z, fold_left Float.add ls acc)).
Proof.
  induction bs as [|b bs IH]; intros x acc H; [reflexivity|].
  inversion H as [|? ? Hb Hbs]; subst.
  rewrite Chain_transform_cons. simpl for_each.
  destruct (transform_and_log_abs_det_jacobian b x c) as [[z l]|e] eqn:E.
  - rewrite child_logdets_cons with (z := z) (l := l) by assumption.
    rewrite <- (Hb x c), E. simpl. rewrite IH by assumption.
    apply bind_ext. intros z'.
    now destruct (child_logdets bs z c).
  - rewrite <- (Hb x c), E. reflexivity.
Qed.

End ChainFacts.

(** C3. [Chain.transform] applies the children's transforms in sequence
    order and [Chain.inverse] applies their inverses in reverse order.
    When the children keep the bijection contract,
    [Chain.transform_and_log_abs_det_jacobian] returns the point of
    [Chain.transform] and the sum of the children's log-determinants, each
    taken at the point produced by the children before it. *)
Theorem Chain_sequencing (b : Bijection) (bs : list Bijection)
  (x : list float) (c : condition) :
  (Chain.transform [] x c = Ok x /\
   Chain.transform (b :: bs) x c
   = (z <- b.(transform) x c ;; Chain.transform bs z c)) /\
  (Chain.inverse [] x c = Ok x /\
   Chain.inverse (b :: bs) x c
   = (z <- Chain.inverse bs x c ;; b.(inverse) z c)) /\
  (Forall consistent bs ->
   Chain.transform_and_log_abs_det_jacobian bs x c
   = (z <- Chain.transform bs x c ;;
      ls <- child_logdets bs x c ;;
      Ok (z, fsum ls)) /\
   fmap fst (Chain.transform_and_log_abs_det_jacobian bs x c)
   = Chain.transform bs x c).
Proof.
  split; [split; [reflexivity|apply Chain_transform_cons]|].
  split; [split; [reflexivity|apply Chain_inverse_cons]|].
  intros H.
  assert (Chain.transform_and_log_abs_det_jacobian bs x c
          = (z <- Chain.transform bs x c ;;
             ls <- child_logdets bs x c ;;
             Ok (z, fsum ls))) as E
      by (now apply Chain_loop).
  split; [exact E|].
  rewrite E. unfold fmap.
  assert (forall z, Chain.transform bs x c = Ok z ->
                    exists ls, child_logdets bs x c = Ok ls) as Hls.
  { intros z Hz.
    destruct (child_logdets bs x c) as [ls|e] eqn:El; [now exists ls|].
    exfalso.
    assert (Chain.transform_and_log_abs_det_jacobian bs x c = Raise e) as E'
        by (rewrite E, Hz; simpl; try rewrite El; reflexivity).
    clear E El.
    unfold Chain.transform_and_log_abs_det_jacobian in E'.
    unfold Chain.transform in Hz.
    revert x z Hz E'. generalize (Fin 0).
    induction H as [|b' bs' Hb' _ IH]; intros acc x z Hz E'; [discriminate|].
    simpl in Hz, E'.
    rewrite <- (Hb' x c) in Hz.
    destruct (transform_and_log_abs_det_jacobian b' x c) as [[z' l']|e'];
      [|discriminate].
    simpl in Hz, E'. eapply IH; eassumption. }
  destruct (Chain.transform bs x c) as [z|e]; [|reflexivity].
  destruct (Hls z eq_refl) as [ls ->]. reflexivity.
Qed.

Lemma Chain_sequencing_witness :
  Chain.transform_and_log_abs_det_jacobian sample_chain [Fin 1; NInf; PInf] None
  = (z <- Chain.transform sample_chain [Fin 1; NInf; PInf] None ;;
     ls <- child_logdets sample_chain [Fin 1; NInf; PInf] None ;;
     Ok (z, fsum ls)) /\
  fmap fst
    (Chain.transform_and_log_abs_det_jacobian sample_chain
       [Fin 1; NInf; PInf] None)
  = Chain.transform sample_chain [Fin 1; NInf; PInf] None.
Proof.
  apply (proj2 (proj2 (Chain_sequencing Flip_bijection sample_chain
                         [Fin 1; NInf; PInf] None))).
  constructor; [intros [|v x] ?; reflexivity|].
  constructor; [intros ? ?; reflexivity|constructor].
Defined.


(** ** The block autoregressive network *)

Section NetworkFacts.

Variable KeyArray : Type.
Variable subkey : KeyArray -> nat -> nat -> KeyArray.
Variable linear_call : KeyArray -> nat -> nat * nat -> nat -> Callable.
Variable _tanh_log_grad : list float -> list float.

(** *** Construction *)

Lemma extend_loop (A : Type) (f : A -> list (layer KeyArray)) (items : list A) :
  forall acc,
    fold_left (fun layers item => layers ++ f item) items acc
    = acc ++ flat_map f items.
Proof.
  induction items as [|a items IH]; intros acc; simpl.
  - now rewrite app_nil_r.
  - now rewrite IH, app_assoc.
Qed.

Lemma fold_left_pointwise (A B : Type) (f g : B -> A -> B) (items : list A) :
  (forall b a, f b a = g b a) ->
  forall acc, fold_left f items acc = fold_left g items acc.
Proof.
  intros H. induction items as [|a items IH]; intros acc; simpl;
    [reflexivity|now rewrite H, IH].
Qed.

Lemma removelast_pairs (A : Type) (f : A -> layer KeyArray) (sep : layer KeyArray)
  (items : list A) :
  removelast (flat_map (fun item => [f item; sep]) items)
  = intersperse sep (map f items).
Proof.
  induction items as [|a items IH]; [reflexivity|].
  destruct items as [|a' items]; [reflexivity|].
  change (flat_map (fun item => [f item; sep]) (a :: a' :: items))
    with (f a :: sep :: flat_map (fun item => [f item; sep]) (a' :: items)).
  change (map f (a :: a' :: items)) with (f a :: map f (a' :: items)).
  change (intersperse sep (f a :: map f (a' :: items)))
    with (f a :: sep :: intersperse sep (map f (a' :: items))).
  rewrite <- IH. reflexivity.
Qed.

Lemma map_snd_combine (A B : Type) (a : list A) : forall (b : list B),
  length a = length b -> map snd (combine a b) = b.
Proof.
  induction a as [|u a IH]; intros [|v b] H; simpl in *;
    try discriminate; [reflexivity|].
  f_equal. apply IH. lia.
Qed.

(** *** The forward pass *)

Lemma transform_loop rest : forall x,
  for_each rest (fun l x => fmap fst (call linear_call l x None)) x
  = fmap fst (forward_rest linear_call rest x).
Proof.
  induction rest as [|l rest IH]; intros x; [reflexivity|].
  simpl. destruct (call linear_call l x None) as [[x' jac]|e]; [|reflexivity].
  simpl. rewrite IH.
  destruct (forward_rest linear_call rest x') as [[y jacs]|e]; reflexivity.
Qed.

Lemma jacobian_loop rest : forall x pre,
  for_each rest
    (fun l state =>
       let '(x, log_det_3ds) := state in
       '(x, log_det_3d) <- call linear_call l x None ;;
       Ok (x, log_det_3ds ++ [log_det_3d]))
    (x, pre)
  = ('(y, jacs) <- forward_rest linear_call rest x ;; Ok (y, pre ++ jacs)).
Proof.
  induction rest as [|l rest IH]; intros x pre; simpl.
  - now rewrite app_nil_r.
  - destruct (call linear_call l x None) as [[x' jac]|e]; [|reflexivity].
    simpl. rewrite IH.
    destruct (forward_rest linear_call rest x') as [[y jacs]|e]; [|reflexivity].
    simpl. now rewrite <- app_assoc.
Qed.

Lemma compose_loop earlier : forall running,
  for_each earlier (fun ld logdet => logmatmulexp logdet ld) running
  = compose_into running earlier.
Proof.
  induction earlier as [|jac earlier IH]; intros running; [reflexivity|].
  simpl. apply bind_ext. intros running'. apply IH.
Qed.

Lemma fold_log_dets_right_to_left jacs :
  fold_log_dets jacs = fold_right_to_left jacs.
Proof.
  unfold fold_log_dets, fold_right_to_left. rewrite compose_loop.
  destruct jacs as [|j jacs] using rev_ind; [reflexivity|].
  now rewrite last_last, removelast_last, rev_app_distr.
Qed.

Lemma network_forward (self : BlockAutoregressiveNetwork KeyArray) x c :
  BlockAutoregressiveNetwork_transform_and_log_abs_det_jacobian
    linear_call self x c
  = ('(y, jacs) <- forward linear_call (layers self) x c ;;
     logdet <- fold_right_to_left jacs ;;
     Ok (y, sum3 logdet))
  /\
  BlockAutoregressiveNetwork_transform linear_call self x c
  = fmap fst (forward linear_call (layers self) x c).
Proof.
  unfold BlockAutoregressiveNetwork_transform_and_log_abs_det_jacobian,
    BlockAutoregressiveNetwork_transform, forward.
  destruct (layers self) as [|first rest]; [split; reflexivity|].
  destruct (call linear_call first x c) as [[x' jac]|e]; [|split; reflexivity].
  simpl. rewrite jacobian_loop, transform_loop.
  destruct (forward_rest linear_call rest x') as [[y jacs]|e]; [|split; reflexivity].
  simpl. now rewrite fold_log_dets_right_to_left.
Qed.

(** C8. With [depth = 0] the network has a single masked-linear layer,
    of block shape [(1,1)] and [cond_dim] conditioning inputs.  With
    [depth > 0] it has [depth + 1] masked-linear layers, of block shapes
    [(block_dim,1)], then [(block_dim,block_dim)] [depth - 1] times, then
    [(1,block_dim)], with the activation after each of them but the last;
    the first takes [cond_dim] conditioning inputs and the others none. *)
Theorem BlockAutoregressiveNetwork_init_layers (key : KeyArray)
  (dim cond_dim depth block_dim : nat) (act : option Callable) :
  let self :=
    BlockAutoregressiveNetwork_init subkey _tanh_log_grad key dim cond_dim
      depth block_dim act in
  (depth = 0 ->
   layers self = [BlockAutoregressiveLinear key dim (1, 1) cond_dim]) /\
  (0 < depth ->
   exists linears,
     layers self = intersperse (Activation KeyArray (activation self)) linears /\
     length linears = depth + 1 /\
     map (@layer_block_shape KeyArray) linears
     = map Some ([(block_dim, 1)] ++ repeat (block_dim, block_dim) (depth - 1)
                   ++ [(1, block_dim)]) /\
     map (@layer_cond_dim KeyArray) linears
     = map Some (cond_dim :: repeat 0 depth) /\
     map (@layer_dim KeyArray) linears = repeat (Some dim) (depth + 1)).
Proof.
  intros self. split.
  - intros ->. reflexivity.
  - intros Hd. unfold self, BlockAutoregressiveNetwork_init. cbn [layers activation].
    destruct (Nat.eqb_spec depth 0) as [->|_]; [lia|].
    set (a := match act with None => _ | Some a => a end).
    set (shapes := [(block_dim, 1)] ++ repeat (block_dim, block_dim) (depth - 1)
                     ++ [(1, block_dim)]).
    set (conds := [cond_dim] ++ repeat 0 depth).
    set (keys := split subkey key (depth + 1)).
    assert (length keys = depth + 1) as Hk
        by (unfold keys, split; now rewrite length_map, length_seq).
    assert (length shapes = depth + 1) as Hs
        by (unfold shapes; rewrite !length_app, repeat_length; simpl; lia).
    assert (length conds = depth + 1) as Hc
        by (unfold conds; rewrite length_app, repeat_length; simpl; lia).
    assert (length (combine keys shapes) = depth + 1) as Hks
        by (rewrite length_combine; lia).
    set (items := combine (combine keys shapes) conds).
    set (mk := fun kbc : KeyArray * (nat * nat) * nat =>
                 BlockAutoregressiveLinear (fst (fst kbc)) dim
                   (snd (fst kbc)) (snd kbc)).
    exists (map mk items).
    split; [|split; [|split; [|split]]].
    + rewrite <- removelast_pairs. f_equal. fold items.
      rewrite fold_left_pointwise
        with (g := fun layers kbc => layers ++ [mk kbc; Activation KeyArray a])
        by (now intros ? [[? ?] ?]).
      rewrite (extend_loop
                 (fun kbc : KeyArray * (nat * nat) * nat =>
                    [mk kbc; Activation KeyArray a]) items []).
      simpl. reflexivity.
    + rewrite length_map. unfold items. rewrite length_combine. lia.
    + rewrite map_map. unfold mk. cbn [layer_block_shape].
      rewrite <- (map_map (fun kbc => snd (fst kbc)) Some).
      rewrite <- (map_map fst snd). unfold items.
      rewrite map_fst_combine by lia.
      rewrite map_snd_combine by lia. reflexivity.
    + rewrite map_map. unfold mk. cbn [layer_cond_dim].
      rewrite <- (map_map snd Some). unfold items.
      rewrite map_snd_combine by lia. reflexivity.
    + rewrite map_map. unfold mk. cbn [layer_dim].
      clear -Hks Hc. unfold items.
      assert (length (combine (combine keys shapes) conds) = depth + 1) as <-
          by (rewrite length_combine; lia).
      induction (combine (combine keys shapes) conds); simpl;
        [reflexivity|now f_equal].
Qed.

(** C4. [inverse] and [inverse_and_log_abs_det_jacobian] raise
    [NotImplementedError] (the specification's UnsupportedOperationError)
    for every instance and every argument, and leave the instance as it
    was; so does the instance built with [dim = 3], [cond_dim = 0],
    [depth = 0] and [block_dim = 1]. *)
Theorem BlockAutoregressiveNetwork_inverse_raises
  (self : BlockAutoregressiveNetwork KeyArray) (Args : Type) (args : Args)
  (key : KeyArray) :
  BlockAutoregressiveNetwork_inverse self args
  = (self, Raise (NotImplementedError inversion_message)) /\
  BlockAutoregressiveNetwork_inverse_and_log_abs_det_jacobian self args
  = (self, Raise (NotImplementedError inversion_message)) /\
  snd (BlockAutoregressiveNetwork_inverse
         (BlockAutoregressiveNetwork_init subkey _tanh_log_grad key 3 0 0 1
            None) args)
  = Raise (NotImplementedError inversion_message).
Proof. repeat split. Qed.

(** C2. [transform_and_log_abs_det_jacobian] runs the forward pass of
    [transform], so it returns the same point, and its log-determinant
    is the sum of all entries of the per-layer block Jacobians folded
    right to left under [logmatmulexp]: the last layer's Jacobian first,
    the earlier ones composed into the running result. *)
Theorem BlockAutoregressiveNetwork_point_and_logdet
  (self : BlockAutoregressiveNetwork KeyArray) (x : list float)
  (c : condition) :
  BlockAutoregressiveNetwork_transform_and_log_abs_det_jacobian
    linear_call self x c
  = ('(y, jacs) <- forward linear_call (layers self) x c ;;
     logdet <- fold_right_to_left jacs ;;
     Ok (y, sum3 logdet))
  /\
  BlockAutoregressiveNetwork_transform linear_call self x c
  = fmap fst (forward linear_call (layers self) x c)
  /\
  (forall y logdet,
      BlockAutoregressiveNetwork_transform_and_log_abs_det_jacobian
        linear_call self x c = Ok (y, logdet) ->
      BlockAutoregressiveNetwork_transform linear_call self x c = Ok y).
Proof.
  destruct (network_forward self x c) as [E1 E2].
  split; [exact E1|]. split; [exact E2|].
  intros y logdet H. rewrite E1 in H. rewrite E2.
  destruct (forward linear_call (layers self) x c) as [[y' jacs]|e];
    [|discriminate].
  simpl in *. destruct (fold_right_to_left jacs); [|discriminate].
  simpl in H. now injection H as -> _.
Qed.

End NetworkFacts.

Lemma BlockAutoregressiveNetwork_init_layers_witness :
  layers (BlockAutoregressiveNetwork_init (fun k _ i => k + i) (fun x => x)
            7 3 2 0 4 None)
  = [BlockAutoregressiveLinear 7 3 (1, 1) 2] /\
  exists linears,
    layers (BlockAutoregressiveNetwork_init (fun k _ i => k + i) (fun x => x)
              7 3 2 2 4 None)
    = intersperse
        (Activation nat
           (activation
              (BlockAutoregressiveNetwork_init (fun k _ i => k + i)
                 (fun x => x) 7 3 2 2 4 None)))
        linears /\
    length linears = 3 /\
    map (@layer_block_shape nat) linears
    = [Some (4, 1); Some (4, 4); Some (1, 4)] /\
    map (@layer_cond_dim nat) linears = [Some 2; Some 0; Some 0] /\
    map (@layer_dim nat) linears = [Some 3; Some 3; Some 3].
Proof.
  split.
  - apply (proj1 (BlockAutoregressiveNetwork_init_layers
                    (fun k _ i => k + i) (fun x => x) 7 3 2 0 4 None)).
    reflexivity.
  - apply (proj2 (BlockAutoregressiveNetwork_init_layers
                    (fun k _ i => k + i) (fun x => x) 7 3 2 2 4 None)).
    lia.
Defined.

Lemma BlockAutoregressiveNetwork_point_and_logdet_witness :
  BlockAutoregressiveNetwork_transform
    (fun (_ : nat) _ _ _ x _ => Ok (x, [[[NInf]]]))
    (mkBlockAutoregressiveNetwork 1 0
       [BlockAutoregressiveLinear 7 1 (1, 1) 0] 0 1
       (fun x _ => Ok (x, [[[NInf]]])))
    [PInf] None
  = Ok [PInf].
Proof.
  apply (proj2 (proj2 (BlockAutoregressiveNetwork_point_and_logdet
                         (fun (_ : nat) _ _ _ x _ => Ok (x, [[[NInf]]]))
                         (mkBlockAutoregressiveNetwork 1 0
                            [BlockAutoregressiveLinear 7 1 (1, 1) 0] 0 1
                            (fun x _ => Ok (x, [[[NInf]]])))
                         [PInf] None))
         [PInf] NInf).
  reflexivity.
Defined.


(** ** Block-diagonal expansion *)

Section Diagonal.

Lemma set_nth_length (A : Type) (v : A) l : forall i,
  length (set_nth i v l) = length l.
Proof.
  induction l as [|h t IH]; intros [|i]; simpl; try reflexivity.
  now rewrite IH.
Qed.

Lemma set_nth_nth (A : Type) (v d : A) l : forall i k,
  nth k (set_nth i v l) d
  = if (k =? i) && (i <? length l) then v else nth k l d.
Proof.
  induction l as [|h t IH]; intros i k.
  - simpl. rewrite andb_false_r. now destruct i.
  - destruct i as [|i], k as [|k]; simpl; try reflexivity.
    rewrite IH. reflexivity.
Qed.

(** One step of the scatter touches row [j] only. *)
Lemma set_diagonal_rows vs t : forall s (m : matrix) i,
  nth i
    (fold_left
       (fun m j => set_nth j (set_nth j (nth j vs NaN) (nth j m [])) m)
       (seq s t) m) []
  = if (s <=? i) && (i <? s + t) && (i <? length m)
    then set_nth i (nth i vs NaN) (nth i m [])
    else nth i m [].
Proof.
  induction t as [|t IH]; intros s m i.
  - simpl. replace (i <? s + 0) with (i <? s) by (f_equal; lia).
    destruct (Nat.leb_spec s i), (Nat.ltb_spec i s); try lia; reflexivity.
  - simpl. rewrite IH, set_nth_length, !set_nth_nth.
    destruct (Nat.leb_spec (S s) i), (Nat.leb_spec s i),
      (Nat.ltb_spec i (S s + t)), (Nat.ltb_spec i (s + S t)),
      (Nat.ltb_spec i (length m)), (Nat.eqb_spec i s),
      (Nat.ltb_spec s (length m));
      simpl; try lia; try reflexivity.
    subst i. reflexivity.
Qed.

Lemma set_diagonal_length d vs : forall (m : matrix),
  length (set_diagonal d m vs) = length m.
Proof.
  unfold set_diagonal. generalize 0.
  induction d as [|d IH]; intros s m; simpl; [reflexivity|].
  now rewrite IH, set_nth_length.
Qed.

Lemma set_diagonal_full d vs j k :
  j < d -> k < d ->
  nth k (nth j (set_diagonal d (repeat (repeat NInf d) d) vs) []) NaN
  = if j =? k then nth j vs NaN else NInf.
Proof.
  intros Hj Hk. unfold set_diagonal.
  rewrite set_diagonal_rows, repeat_length.
  destruct (Nat.ltb_spec j (0 + d)); [|lia].
  destruct (Nat.ltb_spec j d); [|lia]. simpl.
  rewrite set_nth_nth, nth_repeat_lt, repeat_length by assumption.
  destruct (Nat.ltb_spec j d); [|lia]. rewrite andb_true_r.
  rewrite Nat.eqb_sym.
  destruct (j =? k); [reflexivity|]. now apply nth_repeat_lt.
Qed.

Lemma set_diagonal_row_length d vs j :
  j < d ->
  length (nth j (set_diagonal d (repeat (repeat NInf d) d) vs) []) = d.
Proof.
  intros Hj. unfold set_diagonal.
  rewrite set_diagonal_rows, repeat_length.
  destruct (Nat.ltb_spec j (0 + d)); [|lia].
  destruct (Nat.ltb_spec j d); [|lia]. simpl.
  now rewrite set_nth_length, nth_repeat_lt, repeat_length.
Qed.

Lemma reshape_row (vals : list float) d i j :
  j < d ->
  nth j (firstn d (skipn (i * d) vals)) NaN = nth (i * d + j) vals NaN.
Proof.
  intros Hj. rewrite nth_firstn, nth_skipn.
  now destruct (Nat.ltb_spec j d); [|lia].
Qed.

End Diagonal.

(** C9. For [n_blocks >= 1] and a flat vector of [n_blocks * d] values,
    [_3d_log_det] returns an array of shape [(n_blocks, d, d)] whose block
    diagonals carry the values in order and whose other entries are
    minus infinity. *)
Theorem block_diagonal_3d_log_det (vals : list float) (n_blocks d : nat) :
  0 < n_blocks ->
  length vals = n_blocks * d ->
  exists log_det,
    _3d_log_det vals n_blocks = Ok log_det /\
    has_shape n_blocks d d log_det /\
    forall i j k, i < n_blocks -> j < d -> k < d ->
      entry log_det i j k
      = if j =? k then nth (i * d + j) vals NaN else NInf.
Proof.
  intros Hn Hl. unfold _3d_log_det.
  destruct (Nat.eqb_spec n_blocks 0); [lia|].
  assert (length vals / n_blocks = d) as ->
      by (rewrite Hl, Nat.mul_comm; now apply Nat.div_mul).
  unfold reshape. rewrite <- Hl, Nat.eqb_refl. cbn [bind].
  eexists. split; [reflexivity|].
  set (v := map (fun i => firstn d (skipn (i * d) vals)) (seq 0 n_blocks)).
  assert (length v = n_blocks) as Hv
      by (unfold v; now rewrite length_map, length_seq).
  assert (forall i, i < n_blocks ->
            nth i (at_diagonal_set d (full n_blocks d d NInf) v) []
            = set_diagonal d (repeat (repeat NInf d) d)
                (firstn d (skipn (i * d) vals))) as Hblock.
  { intros i Hi. unfold at_diagonal_set, full.
    rewrite nth_indep
      with (d' := (fun mv : matrix * list float =>
                     set_diagonal d (fst mv) (snd mv)) ([], []))
      by (rewrite length_map, length_combine, repeat_length; lia).
    rewrite (map_nth (fun mv => set_diagonal d (fst mv) (snd mv))).
    rewrite combine_nth by (now rewrite repeat_length).
    cbn [fst snd]. rewrite nth_repeat_lt by assumption. f_equal.
    unfold v.
    rewrite nth_indep with (d' := firstn d (skipn (0 * d) vals))
      by (now rewrite length_map, length_seq).
    rewrite (map_nth (fun i => firstn d (skipn (i * d) vals))).
    now rewrite seq_nth. }
  assert (length (at_diagonal_set d (full n_blocks d d NInf) v) = n_blocks)
    as Hlen.
  { unfold at_diagonal_set, full.
    rewrite length_map, length_combine, repeat_length. lia. }
  split; [split; [exact Hlen|]|].
  - apply Forall_nth. intros i m0 Hi.
    unfold array3, matrix in *. rewrite Hlen in Hi.
    rewrite nth_indep with (d' := []) by lia.
    rewrite Hblock by assumption. split.
    + now rewrite set_diagonal_length, repeat_length.
    + apply Forall_nth. intros j r0 Hj.
      rewrite set_diagonal_length, repeat_length in Hj.
      rewrite nth_indep with (d' := [])
        by (now rewrite set_diagonal_length, repeat_length).
      now apply set_diagonal_row_length.
  - intros i j k Hi Hj Hk. unfold entry.
    rewrite Hblock, set_diagonal_full by assumption.
    destruct (j =? k); [|reflexivity]. now apply reshape_row.
Qed.

Lemma block_diagonal_3d_log_det_witness :
  exists log_det,
    _3d_log_det [Fin 1; Fin 2; PInf; NInf] 2 = Ok log_det /\
    has_shape 2 2 2 log_det /\
    forall i j k, i < 2 -> j < 2 -> k < 2 ->
      entry log_det i j k
      = if j =? k then nth (i * 2 + j) [Fin 1; Fin 2; PInf; NInf] NaN
        else NInf.
Proof.
  apply (@block_diagonal_3d_log_det [Fin 1; Fin 2; PInf; NInf] 2 2).
  - lia.
  - reflexivity.
Defined.

(** C9, without the bound on [n_blocks]: the empty vector holds [0 * 2]
    values, and with no blocks the division that finds [d] raises. *)
Lemma no_blocks_3d_log_det :
  length (@nil float) = 0 * 2 /\
  _3d_log_det [] 0 = Raise ZeroDivisionError /\
  ~ (exists log_det, _3d_log_det [] 0 = Ok log_det /\ has_shape 0 2 2 log_det).
Proof.
  split; [reflexivity|]. split; [reflexivity|].
  intros (log_det & H & _). discriminate.
Qed.


(** ** Log-domain matrix multiplication *)

Section Scalars.

Local Open Scope R_scope.

Lemma sign_pos a : 0 < a -> Float.sign a = Gt.
Proof.
  intros H. unfold Float.sign. now destruct (Rlt_dec 0 a).
Qed.

Lemma sign_zero : Float.sign 0 = Eq.
Proof.
  unfold Float.sign.
  destruct (Rlt_dec 0 0) as [H|_]; [lra|].
  destruct (Rlt_dec 0 0) as [H|_]; [lra|reflexivity].
Qed.

Lemma magnitude_nonneg v : 0 <= magnitude v.
Proof.
  destruct v; simpl; try lra. left. apply exp_pos.
Qed.


Lemma exp_logmag v : is_logmag v = true -> Exact.exp v = Fin (magnitude v).
Proof. destruct v; simpl; try discriminate; reflexivity. Qed.

(** The range of binary32. *)
Lemma underflow_pos : 0 < Float.underflow.
Proof. unfold Float.underflow. lra. Qed.

Lemma underflow_lt_normal : Float.underflow < Float.smallest_normal.
Proof. unfold Float.underflow, Float.smallest_normal. lra. Qed.

Lemma normal_le_1 : Float.smallest_normal <= 1.
Proof. unfold Float.smallest_normal. lra. Qed.

Lemma one_lt_overflow : 1 < Float.overflow.
Proof. unfold Float.overflow. lra. Qed.

Lemma range_zero : Float.range 0 = Fin 0.
Proof.
  pose proof underflow_pos. pose proof one_lt_overflow.
  unfold Float.range.
  destruct (Rle_dec Float.overflow 0); [lra|].
  destruct (Rle_dec 0 (- Float.overflow)); [lra|].
  destruct (Rle_dec (Rabs 0) Float.underflow) as [_|H']; [reflexivity|].
  rewrite Rabs_R0 in H'. lra.
Qed.

(** A value of the normal range below one is kept. *)
Lemma range_normal r :
  Float.smallest_normal <= r -> r <= 1 -> Float.range r = Fin r.
Proof.
  pose proof underflow_pos. pose proof underflow_lt_normal.
  pose proof one_lt_overflow.
  intros Hlo Hhi. unfold Float.range.
  destruct (Rle_dec Float.overflow r); [lra|].
  destruct (Rle_dec r (- Float.overflow)); [lra|].
  destruct (Rle_dec (Rabs r) Float.underflow) as [H'|_]; [|reflexivity].
  rewrite Rabs_pos_eq in H' by lra. lra.
Qed.

(** A value between zero and one stays finite: it is kept, or it
    underflows to zero. *)
Lemma range_unit r :
  0 <= r -> r <= 1 -> exists p, Float.range r = Fin p.
Proof.
  pose proof one_lt_overflow. intros Hlo Hhi. unfold Float.range.
  destruct (Rle_dec Float.overflow r); [lra|].
  destruct (Rle_dec r (- Float.overflow)); [lra|].
  destruct (Rle_dec (Rabs r) Float.underflow); now eexists.
Qed.


Lemma exp_le_1 a s : a <= s -> exp (a - s) <= 1.
Proof.
  intros [H| ->].
  - left. rewrite <- exp_0. apply exp_increasing. lra.
  - right. now rewrite Rminus_diag, exp_0.
Qed.

(** The exponential of a shifted finite entry that stays in the normal
    range. *)
Lemma exp_shifted_normal a s :
  a <= s -> Float.smallest_normal <= exp (a - s) ->
  Float.exp (Float.sub (Fin a) (Fin s)) = Fin (exp a * exp (- s)).
Proof.
  intros Ha Hn. cbn [Float.sub Float.opp Float.add].
  unfold Float.exp, Float.exp_in.
  replace (a + - s) with (a - s) by lra.
  rewrite range_normal by (assumption || now apply exp_le_1).
  f_equal. unfold Rminus. apply exp_plus.
Qed.

(** The exponential of any shifted finite entry is finite. *)
Lemma exp_shifted_unit a s :
  a <= s -> exists p, Float.exp (Float.sub (Fin a) (Fin s)) = Fin p.
Proof.
  intros Ha. cbn [Float.sub Float.opp Float.add].
  unfold Float.exp, Float.exp_in.
  replace (a + - s) with (a - s) by lra.
  apply range_unit; [left; apply exp_pos|now apply exp_le_1].
Qed.

Lemma mul_zero_r p : Float.mul (Fin p) (Fin 0) = Fin 0.
Proof.
  unfold Float.mul, Float.mul_in. rewrite Rmult_0_r. apply range_zero.
Qed.

Lemma mul_zero_l p : Float.mul (Fin 0) (Fin p) = Fin 0.
Proof.
  unfold Float.mul, Float.mul_in. rewrite Rmult_0_l. apply range_zero.
Qed.

(** One product of the contraction: exact when both entries are finite
    and the product stays in the normal range, zero when an entry is
    minus infinity. *)
Lemma shifted_product u v s t :
  is_logmag u = true -> is_logmag v = true ->
  (forall a, u = Fin a -> a <= s) ->
  (forall b, v = Fin b -> b <= t) ->
  normal_pair s t (u, v) ->
  Float.mul (Float.exp (Float.sub u (Fin s)))
    (Float.exp (Float.sub v (Fin t)))
  = Fin ((magnitude u * exp (- s)) * (magnitude v * exp (- t))).
Proof.
  intros Hu Hv Hus Hvt Hn.
  destruct u as [a| | |], v as [b| | |]; try discriminate.
  - specialize (Hus a eq_refl). specialize (Hvt b eq_refl).
    cbn [normal_pair] in Hn.
    pose proof (exp_le_1 Hus) as Ha1. pose proof (exp_le_1 Hvt) as Hb1.
    pose proof (exp_pos (a - s)) as Ha0.
    pose proof (exp_pos (b - t)) as Hb0.
    rewrite !exp_shifted_normal by (assumption || nra).
    unfold Float.mul, Float.mul_in. cbn [magnitude].
    assert (exp a * exp (- s) = exp (a - s)) as ->
        by (unfold Rminus; now rewrite exp_plus).
    assert (exp b * exp (- t) = exp (b - t)) as ->
        by (unfold Rminus; now rewrite exp_plus).
    rewrite range_normal; [reflexivity|exact Hn|nra].
  - destruct (exp_shifted_unit (Hus a eq_refl)) as [p ->].
    change (Float.exp (Float.sub NInf (Fin t))) with (Fin 0).
    rewrite mul_zero_r. cbn [magnitude]. f_equal. lra.
  - destruct (exp_shifted_unit (Hvt b eq_refl)) as [p ->].
    change (Float.exp (Float.sub NInf (Fin s))) with (Fin 0).
    rewrite mul_zero_l. cbn [magnitude]. f_equal. lra.
  - change (Float.exp (Float.sub NInf (Fin s))) with (Fin 0).
    change (Float.exp (Float.sub NInf (Fin t))) with (Fin 0).
    rewrite mul_zero_l. cbn [magnitude]. f_equal. lra.
Qed.




(** Shifting by finite amounts and adding the shifts back changes
    nothing in exact arithmetic. *)
Lemma unshift S s t :
  0 <= S ->
  Float.add (Float.add (Float.log (Fin (exp (- s) * exp (- t) * S))) (Fin s))
    (Fin t)
  = Float.log (Fin S).
Proof.
  intros [H|<-].
  - assert (0 < exp (- s) * exp (- t)) as Hc
        by (apply Rmult_lt_0_compat; apply exp_pos).
    simpl. rewrite !sign_pos by (try apply Rmult_lt_0_compat; assumption).
    simpl. f_equal.
    rewrite ln_mult by assumption.
    rewrite <- exp_plus, ln_exp. lra.
  - rewrite Rmult_0_r. simpl. now rewrite sign_zero.
Qed.

End Scalars.

Section Vectors.

Local Open Scope R_scope.

Lemma fold_add_Fin ps : forall a,
  fold_left Float.add (map Fin ps) (Fin a) = Fin (a + rsum ps).
Proof.
  induction ps as [|p ps IH]; intros a; simpl.
  - f_equal. lra.
  - rewrite IH. f_equal. lra.
Qed.

Lemma dot_Fin us : forall vs,
  exact_dot (map Fin us) (map Fin vs) = Fin (rdot us vs).
Proof.
  intros vs. unfold exact_dot, fsum, rdot.
  replace (map (fun p => Exact.mul (fst p) (snd p))
             (combine (map Fin us) (map Fin vs)))
    with (map Fin (map (fun p => fst p * snd p) (combine us vs))).
  - rewrite fold_add_Fin. f_equal. lra.
  - revert vs. induction us as [|u us IH]; intros [|v vs]; simpl;
      try reflexivity.
    now rewrite IH.
Qed.

Lemma rdot_cons u us v vs : rdot (u :: us) (v :: vs) = u * v + rdot us vs.
Proof. reflexivity. Qed.

Lemma rdot_nil_l vs : rdot [] vs = 0.
Proof. reflexivity. Qed.

Lemma rdot_nil_r us : rdot us [] = 0.
Proof. now destruct us. Qed.

Lemma rdot_scaled (r q : list float) a b :
  rdot (map (fun v => magnitude v * a) r) (map (fun v => magnitude v * b) q)
  = a * b * rdot (map magnitude r) (map magnitude q).
Proof.
  revert q. induction r as [|u r IH]; intros [|v q]; simpl map;
    rewrite ?rdot_nil_l, ?rdot_nil_r, ?rdot_cons; try lra.
  rewrite IH. lra.
Qed.

Lemma rdot_nonneg us : forall vs,
  Forall (fun u => 0 <= u) us -> Forall (fun v => 0 <= v) vs ->
  0 <= rdot us vs.
Proof.
  induction us as [|u us IH]; intros [|v vs] Hu Hv;
    rewrite ?rdot_nil_l, ?rdot_nil_r, ?rdot_cons; try lra.
  inversion Hu; inversion Hv; subst.
  apply Rplus_le_le_0_compat; [now apply Rmult_le_pos|now apply IH].
Qed.

Lemma magnitudes_nonneg (r : list float) :
  Forall (fun u => 0 <= u) (map magnitude r).
Proof.
  apply Forall_map, Forall_forall. intros v _. apply magnitude_nonneg.
Qed.

Lemma rdot_magnitudes_nonneg r q :
  0 <= rdot (map magnitude r) (map magnitude q).
Proof. apply rdot_nonneg; apply magnitudes_nonneg. Qed.


Lemma exp_logmags r :
  forallb is_logmag r = true ->
  map Exact.exp r = map Fin (map magnitude r).
Proof.
  intros H. rewrite map_map. apply map_ext_in. intros v Hv.
  apply exp_logmag. rewrite forallb_forall in H. now apply H.
Qed.

(** The sum of the products of the shifted exponentials, when no
    product of two finite entries underflows. *)
Lemma shifted_dot s t r : forall q acc,
  forallb is_logmag r = true -> forallb is_logmag q = true ->
  (forall a, In (Fin a) r -> a <= s) ->
  (forall b, In (Fin b) q -> b <= t) ->
  Forall (normal_pair s t) (combine r q) ->
  fold_left Float.add
    (map (fun p => Float.mul (fst p) (snd p))
       (combine (map (fun v => Float.exp (Float.sub v (Fin s))) r)
                (map (fun v => Float.exp (Float.sub v (Fin t))) q)))
    (Fin acc)
  = Fin (acc + rdot (map (fun v => magnitude v * exp (- s)) r)
                    (map (fun v => magnitude v * exp (- t)) q)).
Proof.
  induction r as [|u r IH]; intros [|v q] acc Hr Hq Hrs Hqt Hn;
    cbn [map combine fold_left];
    rewrite ?rdot_nil_l, ?rdot_nil_r; try (f_equal; lra).
  cbn [forallb] in Hr, Hq.
  apply andb_prop in Hr as [Hu Hr]. apply andb_prop in Hq as [Hv Hq].
  cbn [combine] in Hn. inversion Hn as [|? ? Huv Hn']; subst.
  cbn [fst snd].
  rewrite shifted_product; try assumption.
  - cbn [Float.add]. rewrite IH; try assumption.
    + rewrite rdot_cons. f_equal. lra.
    + intros a Ha. apply Hrs. now right.
    + intros b Hb. apply Hqt. now right.
  - intros a ->. apply Hrs. now left.
  - intros b ->. apply Hqt. now left.
Qed.

(** The maximum of log-magnitudes, one of them finite, is finite. *)
Lemma fold_max_fin t : forall acc,
  forallb is_logmag t = true -> is_logmag acc = true ->
  is_fin acc || existsb is_fin t = true ->
  exists s, fold_left Float.max t acc = Fin s.
Proof.
  induction t as [|v t IH]; intros acc Ht Hacc Hfin; simpl in *.
  - rewrite orb_false_r in Hfin. destruct acc; try discriminate.
    now eexists.
  - apply andb_prop in Ht as [Hv Ht].
    apply IH; [assumption| |].
    + destruct acc, v; try discriminate; reflexivity.
    + destruct acc, v; try discriminate; simpl in *; try reflexivity;
        assumption.
Qed.

Lemma amax_fin r : log_magnitudes r = true -> exists s, amax r = Fin s.
Proof.
  unfold log_magnitudes. intros H. apply andb_prop in H as [Hl Hf].
  destruct r as [|h t]; [discriminate|]. simpl in *.
  apply andb_prop in Hl as [Hh Ht]. now apply fold_max_fin.
Qed.

(** A maximum that met plus infinity or NaN is not finite. *)
Lemma fold_max_special t : forall acc s,
  acc = PInf \/ acc = NaN -> fold_left Float.max t acc <> Fin s.
Proof.
  induction t as [|v t IH]; intros acc s Hacc; cbn [fold_left].
  - destruct Hacc as [-> | ->]; discriminate.
  - apply IH. destruct Hacc as [-> | ->], v; cbn [Float.max]; auto.
Qed.

(** The maximum bounds every finite entry, and is one of the
    entries. *)
Lemma fold_max_upper t : forall acc s,
  fold_left Float.max t acc = Fin s ->
  (forall a, acc = Fin a -> a <= s) /\
  (forall a, In (Fin a) t -> a <= s).
Proof.
  induction t as [|v t IH]; intros acc s H; cbn [fold_left] in H.
  - subst acc. split; [|intros a []].
    intros a [= ->]. lra.
  - destruct (IH _ _ H) as [Hacc Ht]. split.
    + intros a ->. destruct v as [b| | |]; cbn [Float.max] in Hacc, H.
      * specialize (Hacc _ eq_refl). pose proof (Rmax_l a b). lra.
      * exfalso. revert H. apply fold_max_special. now left.
      * now apply Hacc.
      * exfalso. revert H. apply fold_max_special. now right.
    + intros a [-> |Hin]; [|now apply Ht].
      destruct acc as [b| | |]; cbn [Float.max] in Hacc, H.
      * specialize (Hacc _ eq_refl). pose proof (Rmax_r b a). lra.
      * exfalso. revert H. apply fold_max_special. now left.
      * now apply Hacc.
      * exfalso. revert H. apply fold_max_special. now right.
Qed.

Lemma amax_upper r s a : amax r = Fin s -> In (Fin a) r -> a <= s.
Proof.
  destruct r as [|h t]; [discriminate|]. cbn [amax]. intros H Hin.
  destruct (fold_max_upper _ _ H) as [Hh Ht].
  destruct Hin as [-> |Hin]; [now apply Hh|now apply Ht].
Qed.

Lemma fold_max_in t : forall acc,
  fold_left Float.max t acc = acc \/ In (fold_left Float.max t acc) t.
Proof.
  induction t as [|v t IH]; intros acc; cbn [fold_left]; [now left|].
  destruct (IH (Float.max acc v)) as [E|Hin]; [|right; now right].
  rewrite E.
  destruct acc as [a| | |], v as [b| | |]; cbn [Float.max];
    try (now left); try (right; now left).
  unfold Rmax. destruct (Rle_dec a b); [right|]; now left.
Qed.

Lemma amax_in r s : amax r = Fin s -> In (Fin s) r.
Proof.
  destruct r as [|h t]; [discriminate|]. cbn [amax]. intros H.
  rewrite <- H. destruct (fold_max_in t h) as [-> |Hin];
    [now left|now right].
Qed.

(** One entry of the result: the stable form gives the exact log of
    the sum of products when both shifts are finite and no product
    underflows. *)
Lemma entry_unshift r q :
  log_magnitudes r = true -> log_magnitudes q = true ->
  products_normal r q ->
  Float.add
    (Float.add
       (Float.log
          (dot (map (fun v => Float.exp (Float.sub v (amax r))) r)
               (map (fun v => Float.exp (Float.sub v (amax q))) q)))
       (amax r))
    (amax q)
  = Float.log (Fin (rdot (map magnitude r) (map magnitude q))).
Proof.
  intros Hr Hq Hn.
  destruct (amax_fin r Hr) as [s Es], (amax_fin q Hq) as [t Et].
  specialize (Hn s t Es Et). rewrite Es, Et.
  unfold log_magnitudes in Hr, Hq.
  apply andb_prop in Hr as [Hr _]. apply andb_prop in Hq as [Hq _].
  unfold dot, fsum.
  rewrite (@shifted_dot s t r q 0 Hr Hq); try assumption.
  - rewrite Rplus_0_l, rdot_scaled.
    apply unshift, rdot_magnitudes_nonneg.
  - intros a. now apply amax_upper.
  - intros b. now apply amax_upper.
Qed.

Lemma entry_naive r q :
  forallb is_logmag r = true -> forallb is_logmag q = true ->
  Float.log (exact_dot (map Exact.exp r) (map Exact.exp q))
  = Float.log (Fin (rdot (map magnitude r) (map magnitude q))).
Proof.
  intros Hr Hq. now rewrite !exp_logmags, dot_Fin.
Qed.

End Vectors.


Section Blocks.

Lemma combine_map_same (A B C : Type) (g : A -> B) (f : A -> C) l :
  combine (map g l) (map f l) = map (fun a => (g a, f a)) l.
Proof. induction l; simpl; [reflexivity|now f_equal]. Qed.

Lemma with_rows_map (A : Type) op (g : A -> list float) (f : A -> float) l :
  Block.with_rows op (map g l) (map f l)
  = map (fun a => map (fun v => op v (f a)) (g a)) l.
Proof.
  unfold Block.with_rows. now rewrite combine_map_same, map_map.
Qed.

Lemma with_cols_map (A B : Type) op (h : A -> B -> float) (t : B -> float)
  (l : list A) (js : list B) :
  Block.with_cols op (map (fun a => map (h a) js) l) (map t js)
  = map (fun a => map (fun j => op (h a j) (t j)) js) l.
Proof.
  unfold Block.with_cols. rewrite map_map. apply map_ext. intros a.
  now rewrite combine_map_same, map_map.
Qed.

Lemma nth_map_seq (f : nat -> float) c j :
  j < c -> nth j (map f (seq 0 c)) NaN = f j.
Proof.
  intros H.
  rewrite nth_indep with (d' := f 0) by now rewrite length_map, length_seq.
  now rewrite map_nth, seq_nth.
Qed.

Lemma rectangular_rows (y : matrix) row :
  rectangular y = true -> In row y -> length row = ncols y.
Proof.
  unfold rectangular. rewrite forallb_forall. intros H Hr.
  now apply Nat.eqb_eq, H.
Qed.

Lemma column_exp j (y : matrix) :
  column j (Block.exp y) = map Float.exp (column j y).
Proof.
  unfold column, Block.exp. rewrite !map_map. apply map_ext. intros row.
  change NaN with (Float.exp NaN) at 1. apply map_nth.
Qed.

Lemma ncols_exp (y : matrix) : ncols (Block.exp y) = ncols y.
Proof. destruct y; [reflexivity|]. apply length_map. Qed.

(** Column [j] of [exp (y - y_shift)]. *)
Lemma column_shifted (t : nat -> float) j (y : matrix) :
  rectangular y = true -> j < ncols y ->
  column j (Block.exp
              (Block.with_cols Float.sub y (map t (seq 0 (ncols y)))))
  = map (fun v => Float.exp (Float.sub v (t j))) (column j y).
Proof.
  intros Hy Hj. rewrite column_exp. unfold column, Block.with_cols.
  rewrite !map_map. apply map_ext_in. intros row Hrow. f_equal.
  change NaN with ((fun vs => Float.sub (fst vs) (snd vs)) (NaN, NaN)) at 1.
  rewrite map_nth, combine_nth
    by (rewrite length_map, length_seq; now apply rectangular_rows).
  cbn [fst snd]. now rewrite nth_map_seq.
Qed.

Lemma ncols_shifted (t : nat -> float) (y : matrix) :
  rectangular y = true ->
  ncols (Block.exp
           (Block.with_cols Float.sub y (map t (seq 0 (ncols y)))))
  = ncols y.
Proof.
  intros Hy. rewrite ncols_exp.
  destruct y as [|row y]; [reflexivity|].
  unfold ncols at 1. cbn [Block.with_cols map hd].
  rewrite length_map, length_combine, length_map, length_seq.
  apply Nat.min_id.
Qed.

Lemma with_rows_self op (f : list float -> float) (x : matrix) :
  Block.with_rows op x (map f x)
  = map (fun row => map (fun v => op v (f row)) row) x.
Proof.
  unfold Block.with_rows.
  induction x as [|row x IH]; simpl; [reflexivity|now f_equal].
Qed.

Lemma with_rows_grid (A B : Type) op (h : A -> B -> float) (f : A -> float)
  (l : list A) (js : list B) :
  Block.with_rows op (map (fun a => map (h a) js) l) (map f l)
  = map (fun a => map (fun j => op (h a j) (f a)) js) l.
Proof.
  rewrite with_rows_map. apply map_ext. intros a. now rewrite map_map.
Qed.

Lemma log_matmul_grid (A : Type) (g : A -> list float) (l : list A)
  (y : matrix) :
  Block.log (Block.matmul (map g l) y)
  = map (fun a => map (fun j => Float.log (dot (g a) (column j y)))
                    (seq 0 (ncols y))) l.
Proof.
  unfold Block.log, Block.matmul. rewrite !map_map.
  apply map_ext. intros a. now rewrite map_map.
Qed.

(** The block computed by lines 127-130, entry by entry. *)
Lemma logmatmulexp_entries (x y : matrix) :
  rectangular y = true ->
  Block.logmatmulexp x y
  = map (fun row =>
           map (fun j => shifted_entry row (column j y)) (seq 0 (ncols y)))
      x.
Proof.
  intros Hy. unfold Block.logmatmulexp, Block.amax_rows, Block.amax_cols.
  rewrite with_rows_self. unfold Block.exp at 1. rewrite map_map.
  rewrite log_matmul_grid, ncols_shifted by assumption.
  rewrite with_rows_grid, with_cols_map.
  apply map_ext. intros row. apply map_ext_in. intros j Hj.
  apply in_seq in Hj.
  rewrite column_shifted by (assumption || lia).
  now rewrite map_map.
Qed.

Lemma column_exact_exp j (y : matrix) :
  column j (Block.exact_exp y) = map Exact.exp (column j y).
Proof.
  unfold column, Block.exact_exp. rewrite !map_map. apply map_ext.
  intros row. change NaN with (Exact.exp NaN) at 1. apply map_nth.
Qed.

Lemma ncols_exact_exp (y : matrix) : ncols (Block.exact_exp y) = ncols y.
Proof. destruct y; [reflexivity|]. apply length_map. Qed.

Lemma naive_entries (x y : matrix) :
  Block.naive x y
  = map (fun row =>
           map (fun j => naive_entry row (column j y)) (seq 0 (ncols y)))
      x.
Proof.
  unfold Block.naive, Block.log, Block.exact_matmul.
  change (Block.exact_exp x) with (map (map Exact.exp) x).
  rewrite !map_map, ncols_exact_exp.
  apply map_ext. intros row. rewrite map_map. apply map_ext. intros j.
  now rewrite column_exact_exp.
Qed.

Lemma log_magnitudes_logmag r :
  log_magnitudes r = true -> forallb is_logmag r = true.
Proof. unfold log_magnitudes. intros H. now apply andb_prop in H. Qed.

Lemma shifted_entry_exact r q :
  log_magnitudes r = true -> log_magnitudes q = true ->
  products_normal r q ->
  shifted_entry r q = exact_entry r q.
Proof. apply entry_unshift. Qed.

Lemma naive_entry_exact r q :
  log_magnitudes r = true -> log_magnitudes q = true ->
  naive_entry r q = exact_entry r q.
Proof.
  intros Hr Hq. apply entry_naive; now apply log_magnitudes_logmag.
Qed.

(** On a block whose shifts are finite and on which no product
    underflows, the stable computation gives the exact log of the
    product of magnitudes, which is what the reference denotes. *)
Lemma block_exact (x y : matrix) :
  rectangular y = true ->
  rows_finite_max x = true -> cols_finite_max y = true ->
  (forall row j, In row x -> products_normal row (column j y)) ->
  Block.logmatmulexp x y = exact_block x y
  /\ Block.naive x y = Block.logmatmulexp x y.
Proof.
  intros Hy Hx Hc Hn.
  unfold rows_finite_max in Hx. unfold cols_finite_max in Hc.
  rewrite forallb_forall in Hx, Hc.
  rewrite logmatmulexp_entries, naive_entries by assumption.
  unfold exact_block.
  split; apply map_ext_in; intros row Hrow; apply map_ext_in; intros j Hj.
  - apply shifted_entry_exact; auto.
  - rewrite shifted_entry_exact, naive_entry_exact; auto.
Qed.


End Blocks.


Section Arrays.

Lemma shape_block n a b (x : array3) m :
  has_shape n a b x -> In m x ->
  length m = a /\ Forall (fun row => length row = b) m.
Proof.
  intros [_ H] Hm. rewrite Forall_forall in H. now apply H.
Qed.

Lemma shape_nth n a b (x : array3) i :
  has_shape n a b x -> i < n ->
  length (nth i x []) = a /\
  Forall (fun row => length row = b) (nth i x []).
Proof.
  intros H Hi. apply (shape_block _ H). apply nth_In.
  destruct H as [-> _]. exact Hi.
Qed.

Lemma shaped_rectangular b c (y : matrix) :
  length y = b -> 0 < b -> Forall (fun row => length row = c) y ->
  ncols y = c /\ rectangular y = true.
Proof.
  intros Hl Hb Hrows.
  assert (ncols y = c) as Hc.
  { destruct y as [|row y]; [simpl in Hl; lia|].
    now inversion Hrows. }
  split; [exact Hc|].
  unfold rectangular. rewrite Hc. apply forallb_forall. intros row Hrow.
  rewrite Forall_forall in Hrows. now apply Nat.eqb_eq, Hrows.
Qed.

Lemma nth_map_combine (A B C : Type) (f : A * B -> C) (l1 : list A)
  (l2 : list B) i d d1 d2 :
  i < length l1 -> length l1 = length l2 ->
  nth i (map f (combine l1 l2)) d = f (nth i l1 d1, nth i l2 d2).
Proof.
  intros Hi Hl.
  rewrite nth_indep with (d' := f (d1, d2))
    by (rewrite length_map, length_combine; lia).
  now rewrite map_nth, combine_nth.
Qed.

(** On arrays of shapes [(n,a,b)] and [(n,b,c)] with [b >= 1] nothing
    raises, and the result is computed block by block. *)
Lemma logmatmulexp_shaped n a b c (x y : array3) :
  has_shape n a b x -> has_shape n b c y -> 0 < b ->
  logmatmulexp x y
  = Ok (map (fun xy => Block.logmatmulexp (fst xy) (snd xy)) (combine x y))
  /\
  log_matmul_exp x y
  = Ok (map (fun xy => Block.naive (fst xy) (snd xy)) (combine x y)).
Proof.
  intros Hx Hy Hb. unfold logmatmulexp, log_matmul_exp, broadcast_batch.
  destruct Hx as [Hnx Hx], Hy as [Hny Hy].
  rewrite Hnx, Hny, Nat.eqb_refl. cbn [bind].
  rewrite Forall_forall in Hx, Hy.
  assert (forallb reducible (combine x y) = true) as ->.
  { apply forallb_forall. intros [mx my] Hin. unfold reducible. cbn [snd].
    apply in_combine_r in Hin. apply Hy in Hin as [-> _].
    now apply Nat.leb_le. }
  assert (forallb contracts (combine x y) = true) as ->.
  { apply forallb_forall. intros [mx my] Hin. unfold contracts.
    cbn [fst snd].
    pose proof (in_combine_l _ _ _ _ Hin) as Hinx.
    apply in_combine_r in Hin. apply Hy in Hin as [-> _].
    apply Hx in Hinx as [_ Hrows]. apply forallb_forall.
    intros row Hrow. rewrite Forall_forall in Hrows.
    now apply Nat.eqb_eq, Hrows. }
  split; reflexivity.
Qed.

Lemma grid_shape (A : Type) (h : list float -> nat -> A) (x : list (list float)) a c :
  length x = a ->
  length (map (fun row => map (h row) (seq 0 c)) x) = a /\
  Forall (fun row => length row = c)
    (map (fun row => map (h row) (seq 0 c)) x).
Proof.
  intros Hl. split; [now rewrite length_map|].
  apply Forall_map, Forall_forall. intros row _.
  now rewrite length_map, length_seq.
Qed.

Lemma blocks_shape n a b c (x y : array3) :
  has_shape n a b x -> has_shape n b c y -> 0 < b ->
  has_shape n a c
    (map (fun xy => Block.logmatmulexp (fst xy) (snd xy)) (combine x y)).
Proof.
  intros Hx Hy Hb. split.
  - destruct Hx as [Hnx _], Hy as [Hny _].
    rewrite length_map, length_combine. lia.
  - apply Forall_map, Forall_forall. intros [mx my] Hin. simpl.
    pose proof (in_combine_l _ _ _ _ Hin) as Hinx.
    apply in_combine_r in Hin.
    destruct (shape_block _ Hx Hinx) as [Hax _].
    destruct (shape_block _ Hy Hin) as [Hby Hrows].
    destruct (shaped_rectangular Hby Hb Hrows) as [Hc Hrect].
    rewrite logmatmulexp_entries, Hc by assumption.
    now apply grid_shape.
Qed.


End Arrays.



(** ** Underflow *)

Section Underflow.

Local Open Scope R_scope.





Lemma spread_normal_flat row : flat row -> spread_normal row.
Proof.
  intros [u0 Hr] s Es. apply amax_in in Es.
  rewrite Forall_forall in Hr. apply Forall_forall. intros u Hu.
  destruct (Hr _ Hu) as [-> |Eu]; [exact I|].
  destruct (Hr _ Es) as [E|E]; [discriminate|].
  rewrite Eu, <- E. rewrite Rminus_diag, exp_0.
  pose proof normal_le_1. lra.
Qed.

(** A row whose finite entries stay close to its maximum, against a
    flat column: no product underflows. *)
Lemma products_normal_spread row col :
  spread_normal row -> flat col -> products_normal row col.
Proof.
  intros Hr [v0 Hc] s t Es Et. specialize (Hr s Es).
  apply amax_in in Et.
  rewrite Forall_forall in Hr, Hc.
  apply Forall_forall. intros [u v] Hin.
  pose proof (in_combine_l _ _ _ _ Hin) as Hu.
  apply in_combine_r in Hin.
  specialize (Hr _ Hu).
  destruct u as [a| | |]; try exact I.
  destruct (Hc _ Hin) as [-> |Ev]; [exact I|].
  destruct (Hc _ Et) as [E'|E']; [discriminate|].
  rewrite Ev, <- E'. cbn [normal_pair].
  rewrite Rminus_diag, exp_0. lra.
Qed.





End Underflow.



Section Departures.

Local Open Scope R_scope.


End Departures.




(** ** Associativity *)

Section RealMatrices.

Local Open Scope R_scope.





End RealMatrices.

Section BlockAssociativity.

Local Open Scope R_scope.

Lemma nth_column j (y : matrix) k :
  nth k (column j y) NaN = nth j (nth k y []) NaN.
Proof.
  unfold column.
  rewrite <- (map_nth (fun row : list float => nth j row NaN) y [] k).
  f_equal. now destruct j.
Qed.

Lemma column_length j (y : matrix) : length (column j y) = length y.
Proof. apply length_map. Qed.

Lemma nth_magnitude r k :
  nth k (map magnitude r) 0 = magnitude (nth k r NaN).
Proof. change 0 with (magnitude NaN). apply map_nth. Qed.






Lemma log_magnitudes_intro r k :
  forallb is_logmag r = true -> (k < length r)%nat ->
  is_fin (nth k r NaN) = true ->
  log_magnitudes r = true.
Proof.
  intros Hl Hk Hfin. unfold log_magnitudes. rewrite Hl. simpl.
  apply existsb_exists. exists (nth k r NaN). split; [|assumption].
  now apply nth_In.
Qed.








End BlockAssociativity.




(** Flatness of a list written out. *)
Ltac flat_entries :=
  repeat (apply Forall_cons; [first [left; reflexivity|right; reflexivity]|]);
  apply Forall_nil.

Ltac flat_list := first [exists NaN; flat_entries|eexists; flat_entries].

Section SampleProducts.




Lemma log_identity_flat_rows i j : flat (nth j (nth i [log_identity] []) []).
Proof. destruct i as [|[|i]], j as [|[|[|j]]]; simpl; flat_list. Qed.




End SampleProducts.


Section DeadColumn.

Lemma max_NaN_r u : Float.max u NaN = NaN.
Proof. now destruct u. Qed.

Lemma add_NaN_r u : Float.add u NaN = NaN.
Proof. now destruct u. Qed.








Local Open Scope R_scope.



End DeadColumn.



(** * Further properties *)

(** ** Scalar addition *)

Section FloatAdd.

Lemma add_0_l u : Float.add (Fin 0) u = u.
Proof. destruct u; simpl; try reflexivity. f_equal. lra. Qed.

Lemma add_0_r u : Float.add u (Fin 0) = u.
Proof. destruct u; simpl; try reflexivity. f_equal. lra. Qed.

Lemma add_assoc u v w :
  Float.add (Float.add u v) w = Float.add u (Float.add v w).
Proof. destruct u, v, w; simpl; try reflexivity. f_equal. lra. Qed.

End FloatAdd.

(** ** Flip and Permute *)

Section Reindexing.

Lemma gather_arange x : gather x (arange (length x)) = x.
Proof.
  apply nth_ext with (d := NaN) (d' := NaN).
  - now rewrite gather_length, arange_length.
  - intros j Hj. rewrite gather_length, arange_length in Hj.
    unfold gather.
    rewrite nth_indep with (d' := getitem x 0%Z)
      by now rewrite length_map, arange_length.
    rewrite map_nth, nth_arange by assumption.
    now apply getitem_in_range.
Qed.

Lemma gather_rev x p : gather x (rev p) = rev (gather x p).
Proof. apply map_rev. Qed.

Lemma gather_reversal x : gather x (reversal (length x)) = rev x.
Proof. unfold reversal. now rewrite gather_rev, gather_arange. Qed.

Lemma reversal_length n : length (reversal n) = n.
Proof. unfold reversal. now rewrite length_rev, arange_length. Qed.

Lemma reversal_is_permutation n : is_permutation (reversal n).
Proof.
  apply is_permutation_iff. rewrite reversal_length.
  unfold reversal. symmetry. apply Permutation_rev.
Qed.

Lemma gather_permutation x p :
  is_permutation p -> length x = length p -> Permutation (gather x p) x.
Proof.
  intros Hp Hl. apply is_permutation_iff in Hp.
  rewrite <- (gather_arange x) at 2. rewrite Hl.
  unfold gather. now apply Permutation_map.
Qed.

Lemma argsort_is_permutation p :
  is_permutation p -> is_permutation (argsort p).
Proof.
  intros Hp. apply is_permutation_iff. rewrite argsort_length.
  unfold argsort.
  rewrite (Permutation_map snd (sort_keys_perm _)).
  now rewrite map_snd_combine by now rewrite arange_length.
Qed.

Lemma nth_in_range (p : list Z) j :
  is_permutation p -> j < length p ->
  (0 <= nth j p 0 < Z.of_nat (length p))%Z.
Proof.
  intros Hp Hj. apply is_permutation_iff in Hp.
  apply in_arange. eapply Permutation_in; [exact Hp|]. now apply nth_In.
Qed.

Lemma argsort_argsort p : is_permutation p -> argsort (argsort p) = p.
Proof.
  intros Hp. pose proof (argsort_is_permutation Hp) as Hq.
  apply nth_ext with (d := 0%Z) (d' := 0%Z).
  - now rewrite !argsort_length.
  - intros j Hj. rewrite !argsort_length in Hj.
    assert (j < length (argsort p)) as Hj' by now rewrite argsort_length.
    destruct (argsort_inverse Hq Hj') as (k & Hk & Hqq & Hqk).
    rewrite argsort_length in Hk.
    destruct (argsort_inverse Hp Hk) as (k' & Hk' & Hqk' & Hpk').
    rewrite Hqq. rewrite Hqk' in Hqk.
    apply Nat2Z.inj in Hqk. subst k'. now symmetry.
Qed.

End Reindexing.

(** X1. [Flip] is its own inverse: [inverse] undoes [transform],
    [transform] undoes [inverse], and the length is kept. *)
Theorem Flip_own_inverse (x : list float) (c c' : condition) :
  bind (Flip.transform x c) (fun y => Flip.inverse y c') = Ok x /\
  bind (Flip.inverse x c) (fun y => Flip.transform y c') = Ok x /\
  fmap (@length float) (Flip.transform x c) = Ok (length x).
Proof.
  unfold Flip.transform, Flip.inverse, flip, fmap. simpl.
  now rewrite rev_involutive, length_rev.
Qed.

(** X2. On a vector of dimension [n], [Flip] is the [Permute] built from
    the reversed index range: the construction is accepted, and its
    [transform] and [inverse] return what those of [Flip] return. *)
Theorem Flip_is_reversal_Permute (x : list float) (c : condition) :
  exists P,
    Permute.init (reversal (length x)) = Ok P /\
    Permute.transform P x c = Flip.transform x c /\
    Permute.inverse P x c = Flip.inverse x c /\
    Permute.transform_and_log_abs_det_jacobian P x c
    = Flip.transform_and_log_abs_det_jacobian x c.
Proof.
  pose proof (reversal_is_permutation (length x)) as Hp.
  eexists. split; [now apply init_accepts|].
  unfold Permute.transform, Permute.inverse, Flip.transform, Flip.inverse,
    Permute.transform_and_log_abs_det_jacobian,
    Flip.transform_and_log_abs_det_jacobian, flip.
  cbn [permutation inverse_permutation].
  rewrite !take_same_length
    by now rewrite ?argsort_length, reversal_length.
  cbn [bind].
  rewrite gather_reversal. repeat split. f_equal.
  assert (gather (gather (rev x) (reversal (length x)))
            (argsort (reversal (length x))) = rev x) as E
      by (apply gather_argsort_gather;
          [exact Hp|now rewrite length_rev, reversal_length]).
  rewrite <- (length_rev x) in E at 1.
  now rewrite gather_reversal, rev_involutive in E.
Qed.

(** X3. For a valid permutation [p] and a vector [y] of the same
    dimension, [transform] undoes [inverse]: [transform (inverse y) = y]. *)
Theorem Permute_transform_inverse (p : list Z) (P : Permute)
  (y : list float) (c c' : condition) :
  Permute.init p = Ok P ->
  length y = length p ->
  bind (Permute.inverse P y c) (fun x => Permute.transform P x c') = Ok y.
Proof.
  intros Hinit Hlen. apply init_inv in Hinit as [Hp ->].
  unfold Permute.inverse, Permute.transform.
  cbn [permutation inverse_permutation].
  rewrite take_same_length by now rewrite argsort_length.
  cbn [bind].
  rewrite take_same_length by now rewrite gather_length, argsort_length.
  f_equal.
  rewrite <- (argsort_argsort Hp) at 2.
  apply gather_argsort_gather.
  - now apply argsort_is_permutation.
  - now rewrite argsort_length.
Qed.

Lemma Permute_transform_inverse_witness :
  bind (Permute.inverse (mkPermute [1; 2; 0]%Z (argsort [1; 2; 0]%Z))
          [Fin 1; NInf; PInf] None)
       (fun x => Permute.transform
                   (mkPermute [1; 2; 0]%Z (argsort [1; 2; 0]%Z)) x None)
  = Ok [Fin 1; NInf; PInf].
Proof.
  apply (@Permute_transform_inverse [1; 2; 0]%Z
           (mkPermute [1; 2; 0]%Z (argsort [1; 2; 0]%Z))
           [Fin 1; NInf; PInf] None None);
    reflexivity.
Defined.

(** X4. For a valid permutation and a vector of the same dimension,
    [transform] and [inverse] only rearrange: the result holds the same
    entries, each as often as the input. *)
Theorem Permute_rearranges (p : list Z) (P : Permute) (x : list float)
  (c : condition) :
  Permute.init p = Ok P ->
  length x = length p ->
  (exists y, Permute.transform P x c = Ok y /\ Permutation y x) /\
  (exists y, Permute.inverse P x c = Ok y /\ Permutation y x).
Proof.
  intros Hinit Hlen. apply init_inv in Hinit as [Hp ->].
  unfold Permute.transform, Permute.inverse.
  cbn [permutation inverse_permutation].
  rewrite !take_same_length by now rewrite ?argsort_length.
  split; eexists; (split; [reflexivity|]).
  - now apply gather_permutation.
  - apply gather_permutation.
    + now apply argsort_is_permutation.
    + now rewrite argsort_length.
Qed.

Lemma Permute_rearranges_witness :
  (exists y, Permute.transform (mkPermute [1; 2; 0]%Z (argsort [1; 2; 0]%Z))
               [Fin 1; NInf; PInf] None = Ok y /\
             Permutation y [Fin 1; NInf; PInf]) /\
  (exists y, Permute.inverse (mkPermute [1; 2; 0]%Z (argsort [1; 2; 0]%Z))
               [Fin 1; NInf; PInf] None = Ok y /\
             Permutation y [Fin 1; NInf; PInf]).
Proof.
  apply (@Permute_rearranges [1; 2; 0]%Z
           (mkPermute [1; 2; 0]%Z (argsort [1; 2; 0]%Z))
           [Fin 1; NInf; PInf] None);
    reflexivity.
Defined.

(** X5. The inverse permutation held by a [Permute] is itself accepted
    by [Permute], its own inverse permutation is the original one, and
    the instance built from it swaps [transform] and [inverse]. *)
Theorem Permute_of_inverse_permutation (p : list Z) (P : Permute) :
  Permute.init p = Ok P ->
  exists Q,
    Permute.init (inverse_permutation P) = Ok Q /\
    inverse_permutation Q = permutation P /\
    forall x c,
      Permute.transform Q x c = Permute.inverse P x c /\
      Permute.inverse Q x c = Permute.transform P x c.
Proof.
  intros Hinit. apply init_inv in Hinit as [Hp ->].
  cbn [permutation inverse_permutation].
  eexists. split; [apply init_accepts; now apply argsort_is_permutation|].
  cbn [permutation inverse_permutation].
  split; [now apply argsort_argsort|].
  intros x c. unfold Permute.transform, Permute.inverse.
  cbn [permutation inverse_permutation].
  now rewrite argsort_argsort.
Qed.

Lemma Permute_of_inverse_permutation_witness :
  exists Q,
    Permute.init
      (inverse_permutation (mkPermute [1; 2; 0]%Z (argsort [1; 2; 0]%Z)))
    = Ok Q /\
    inverse_permutation Q
    = permutation (mkPermute [1; 2; 0]%Z (argsort [1; 2; 0]%Z)) /\
    forall x c,
      Permute.transform Q x c
      = Permute.inverse (mkPermute [1; 2; 0]%Z (argsort [1; 2; 0]%Z)) x c /\
      Permute.inverse Q x c
      = Permute.transform (mkPermute [1; 2; 0]%Z (argsort [1; 2; 0]%Z)) x c.
Proof.
  apply (@Permute_of_inverse_permutation [1; 2; 0]%Z
           (mkPermute [1; 2; 0]%Z (argsort [1; 2; 0]%Z))).
  reflexivity.
Defined.


(** ** Chains of chains, and chains that end a network *)

Section ChainComposition.

Variable c : condition.

Lemma bind_Ok (A : Type) (r : result A) : bind r Ok = r.
Proof. now destruct r. Qed.

Lemma Chain_transform_app bs1 bs2 x :
  Chain.transform (bs1 ++ bs2) x c
  = (z <- Chain.transform bs1 x c ;; Chain.transform bs2 z c).
Proof. apply for_each_app. Qed.

Lemma Chain_inverse_app bs1 bs2 z :
  Chain.inverse (bs1 ++ bs2) z c
  = (x <- Chain.inverse bs2 z c ;; Chain.inverse bs1 x c).
Proof. unfold Chain.inverse. rewrite rev_app_distr. apply for_each_app. Qed.

(** The accumulated log-determinant can be added afterwards. *)
Lemma Chain_loop_from bs : forall x acc,
  for_each bs
    (fun bijection state =>
       let '(z, log_abs_det_jac) := state in
       '(z, log_abs_det_jac_i) <-
          bijection.(transform_and_log_abs_det_jacobian) z c ;;
       Ok (z, Float.add log_abs_det_jac log_abs_det_jac_i))
    (x, acc)
  = ('(y, l) <- Chain.transform_and_log_abs_det_jacobian bs x c ;;
     Ok (y, Float.add acc l)).
Proof.
  unfold Chain.transform_and_log_abs_det_jacobian.
  induction bs as [|b bs IH]; intros x acc; cbn [for_each bind].
  - now rewrite add_0_r.
  - destruct (transform_and_log_abs_det_jacobian b x c) as [[z l]|e];
      [|reflexivity].
    cbn [bind]. rewrite add_0_l, (IH z (Float.add acc l)), (IH z l).
    destruct (for_each bs _ (z, Fin 0)) as [[y l']|e]; [|reflexivity].
    cbn [bind]. now rewrite add_assoc.
Qed.

Lemma Chain_tlad_app bs1 bs2 x :
  Chain.transform_and_log_abs_det_jacobian (bs1 ++ bs2) x c
  = ('(z, l1) <- Chain.transform_and_log_abs_det_jacobian bs1 x c ;;
     '(y, l2) <- Chain.transform_and_log_abs_det_jacobian bs2 z c ;;
     Ok (y, Float.add l1 l2)).
Proof.
  unfold Chain.transform_and_log_abs_det_jacobian at 1.
  rewrite for_each_app.
  fold (Chain.transform_and_log_abs_det_jacobian bs1 x c).
  apply bind_ext. intros [z l1]. apply Chain_loop_from.
Qed.

Lemma Chain_tlad_cons b bs x :
  Chain.transform_and_log_abs_det_jacobian (b :: bs) x c
  = ('(z, l1) <- b.(transform_and_log_abs_det_jacobian) x c ;;
     '(y, l2) <- Chain.transform_and_log_abs_det_jacobian bs z c ;;
     Ok (y, Float.add l1 l2)).
Proof.
  unfold Chain.transform_and_log_abs_det_jacobian at 1.
  cbn [for_each bind].
  destruct (transform_and_log_abs_det_jacobian b x c) as [[z l]|e];
    [|reflexivity].
  cbn [bind]. now rewrite add_0_l, Chain_loop_from.
Qed.

End ChainComposition.

(** X6. A chain of two chains behaves as the chain of the concatenated
    children: [transform], [inverse] and
    [transform_and_log_abs_det_jacobian] return the same, exceptions
    included. *)
Theorem Chain_of_chains (bs1 bs2 : list Bijection) (x : list float)
  (c : condition) :
  Chain.transform [Chain_bijection bs1; Chain_bijection bs2] x c
  = Chain.transform (bs1 ++ bs2) x c /\
  Chain.inverse [Chain_bijection bs1; Chain_bijection bs2] x c
  = Chain.inverse (bs1 ++ bs2) x c /\
  Chain.transform_and_log_abs_det_jacobian
    [Chain_bijection bs1; Chain_bijection bs2] x c
  = Chain.transform_and_log_abs_det_jacobian (bs1 ++ bs2) x c.
Proof.
  split; [|split].
  - rewrite Chain_transform_app, Chain_transform_cons.
    cbn [transform Chain_bijection]. apply bind_ext. intros z.
    rewrite Chain_transform_cons. cbn [transform Chain_bijection].
    unfold Chain.transform at 3. simpl. apply bind_Ok.
  - rewrite Chain_inverse_app, Chain_inverse_cons.
    cbn [inverse Chain_bijection].
    rewrite Chain_inverse_cons. cbn [inverse Chain_bijection].
    unfold Chain.inverse at 1. simpl. reflexivity.
  - rewrite Chain_tlad_app, Chain_tlad_cons.
    cbn [transform_and_log_abs_det_jacobian Chain_bijection].
    apply bind_ext. intros [z l1]. rewrite Chain_tlad_cons.
    cbn [transform_and_log_abs_det_jacobian Chain_bijection].
    destruct (Chain.transform_and_log_abs_det_jacobian bs2 z c) as [[y l2]|e];
      [|reflexivity].
    simpl. now rewrite add_0_r.
Qed.

(** X7. A chain inverts what it transforms when each child does: if, on
    the points of a domain the children keep, every child's [inverse]
    undoes its [transform], then [Chain.inverse] undoes
    [Chain.transform]. *)
Theorem Chain_inverse_transform (D : list float -> Prop)
  (bs : list Bijection) (c : condition) :
  Forall (fun b => forall x y, D x -> b.(transform) x c = Ok y ->
                               D y /\ b.(inverse) y c = Ok x) bs ->
  forall x y, D x -> Chain.transform bs x c = Ok y ->
              D y /\ Chain.inverse bs y c = Ok x.
Proof.
  induction 1 as [|b bs Hb _ IH]; intros x y Hx Ht.
  - injection Ht as <-. now split.
  - rewrite Chain_transform_cons in Ht.
    destruct (transform b x c) as [z|e] eqn:Ez; [|discriminate].
    simpl in Ht. destruct (Hb x z Hx Ez) as [Hz Hi].
    destruct (IH z y Hz Ht) as [Hy Hci]. split; [assumption|].
    now rewrite Chain_inverse_cons, Hci.
Qed.

Lemma Chain_inverse_transform_witness :
  length [NInf; Fin 1; PInf] = 3 /\
  Chain.inverse sample_chain [NInf; Fin 1; PInf] None = Ok [Fin 1; NInf; PInf].
Proof.
  apply (@Chain_inverse_transform (fun x => length x = 3) sample_chain None)
    with (x := [Fin 1; NInf; PInf]).
  - constructor; [|constructor; [|constructor]].
    + intros [|u [|v [|w [|? ?]]]] y Hx Ht; try discriminate.
      injection Ht as <-. split; reflexivity.
    + intros x y Hx Ht. injection Ht as <-. split.
      * unfold flip. now rewrite length_rev.
      * cbn [inverse Flip_bijection]. unfold Flip.inverse, flip.
        now rewrite rev_involutive.
  - reflexivity.
  - reflexivity.
Defined.



(** ** intertwine_permute and default_permute_strategy *)

Section Interleaving.

Variables (A : Type) (sep : A).

Lemma extend_pairs (l : list A) : forall acc,
  fold_left (fun acc a => acc ++ [a; sep]) l acc
  = acc ++ flat_map (fun a => [a; sep]) l.
Proof.
  induction l as [|a l IH]; intros acc; simpl.
  - now rewrite app_nil_r.
  - rewrite IH, <- app_assoc. reflexivity.
Qed.

Lemma removelast_pairs_cons a b (l : list A) :
  removelast (flat_map (fun a => [a; sep]) (a :: b :: l))
  = a :: sep :: removelast (flat_map (fun a => [a; sep]) (b :: l)).
Proof. reflexivity. Qed.

Lemma interleaved_length (l : list A) :
  length (removelast (flat_map (fun a => [a; sep]) l)) = 2 * length l - 1.
Proof.
  induction l as [|a [|b l] IH]; [reflexivity|reflexivity|].
  rewrite removelast_pairs_cons. cbn [length]. rewrite IH. cbn [length].
  lia.
Qed.

Lemma interleaved_even (l : list A) : forall i,
  nth_error (removelast (flat_map (fun a => [a; sep]) l)) (2 * i)
  = nth_error l i.
Proof.
  induction l as [|a [|b l] IH]; intros i.
  - now destruct i.
  - destruct i as [|i]; [reflexivity|].
    replace (2 * S i) with (S (S (2 * i))) by lia. simpl.
    now destruct i.
  - rewrite removelast_pairs_cons. destruct i as [|i]; [reflexivity|].
    replace (2 * S i) with (S (S (2 * i))) by lia.
    cbn [nth_error]. apply IH.
Qed.

Lemma interleaved_odd (l : list A) : forall i,
  S i < length l ->
  nth_error (removelast (flat_map (fun a => [a; sep]) l)) (2 * i + 1)
  = Some sep.
Proof.
  induction l as [|a [|b l] IH]; intros i Hi; try (simpl in Hi; lia).
  rewrite removelast_pairs_cons. destruct i as [|i]; [reflexivity|].
  replace (2 * S i + 1) with (S (S (2 * i + 1))) by lia.
  cbn [nth_error]. apply IH. simpl in *. lia.
Qed.

End Interleaving.

Section IntertwinePermuteFacts.

Variable KeyArray : Type.
Variable shuffled_rows :
  option KeyArray -> option nat -> nat -> raised + list (list Z).

(** X9. With a strategy that reads "flip" in any letter case,
    [intertwine_permute] returns the bijections with a [Flip] between
    each two of them: [2 * n - 1] entries for [n] bijections, the
    bijections at the even positions and [Flip] at the odd ones. *)
Theorem intertwine_permute_flip (bijection_list : list Bijection)
  (strategy : String.string) (key : option KeyArray) (dim : option nat) :
  lower strategy = "flip"%string ->
  exists bijections,
    intertwine_permute shuffled_rows bijection_list strategy key dim
    = inr (Some bijections) /\
    length bijections = 2 * length bijection_list - 1 /\
    (forall i, nth_error bijections (2 * i) = nth_error bijection_list i) /\
    (forall i, S i < length bijection_list ->
               nth_error bijections (2 * i + 1) = Some Flip_bijection).
Proof.
  intros Hs. unfold intertwine_permute. rewrite Hs. cbn [String.eqb].
  change (String.eqb "flip" "flip") with true. cbv iota.
  rewrite extend_pairs. cbn [app].
  eexists. split; [reflexivity|].
  split; [apply interleaved_length|].
  split; [apply interleaved_even|apply interleaved_odd].
Qed.

(** X10. With a strategy that reads "random" in any letter case,
    [intertwine_permute] never returns a bijection: a list it returns
    is empty, it never returns [None], and with a bijection and a
    shuffled row to pair it raises, the TypeError of [extend] called
    with two arguments unless [Permute] refuses the first row. *)
Theorem intertwine_permute_random (bijection_list : list Bijection)
  (strategy : String.string) (key : option KeyArray) (dim : option nat) :
  lower strategy = "random"%string ->
  let outcome :=
    intertwine_permute shuffled_rows bijection_list strategy key dim in
  (forall bijections, outcome = inr (Some bijections) -> bijections = []) /\
  outcome <> inr None /\
  (forall b rest p rows,
      bijection_list = b :: rest ->
      shuffled_rows key dim (length bijection_list) = inr (p :: rows) ->
      outcome = inl (if all_equal (sort p) (arange (length p))
                     then TypeError else Inner AssertionError)).
Proof.
  intros Hs outcome. unfold outcome, intertwine_permute. rewrite Hs.
  change (String.eqb "random" "flip") with false.
  change (String.eqb "random" "random") with true. cbv iota.
  destruct (shuffled_rows key dim (length bijection_list))
    as [e|permutations] eqn:E.
  - repeat split; try discriminate.
  - destruct (combine bijection_list permutations) as [|[b p] items] eqn:Ec.
    + cbn [loop removelast]. split; [|split].
      * now intros bijections [= <-].
      * discriminate.
      * intros b rest p rows -> [= ->]. discriminate.
    + cbn [loop fst snd]. unfold Permute.init, extend_two.
      assert (forall ok : bool,
                match (if ok
                       then Ok (mkPermute p (argsort p))
                       else Raise AssertionError)
                with
                | Ok _ => @inl raised (list Bijection) TypeError
                | Raise e => inl (Inner e)
                end
                = inl (if ok then TypeError else Inner AssertionError))
        as Hbody by (now intros []).
      rewrite Hbody. split; [|split]; try discriminate.
      intros b' rest p' rows -> [= ->]. simpl in Ec.
      now injection Ec as _ <- _.
Qed.

(** X11. With any other strategy [intertwine_permute] raises nothing
    and returns [None]: the [ValueError] of its last line is built but
    not raised. *)
Theorem intertwine_permute_other (bijection_list : list Bijection)
  (strategy : String.string) (key : option KeyArray) (dim : option nat) :
  lower strategy <> "flip"%string ->
  lower strategy <> "random"%string ->
  intertwine_permute shuffled_rows bijection_list strategy key dim
  = inr None.
Proof.
  intros Hf Hr. unfold intertwine_permute.
  apply String.eqb_neq in Hf, Hr. now rewrite Hf, Hr.
Qed.

End IntertwinePermuteFacts.

Lemma intertwine_permute_flip_witness :
  exists bijections,
    intertwine_permute (fun (_ : option nat) _ _ => inr [])
      sample_chain "Flip"%string None None
    = inr (Some bijections) /\
    length bijections = 2 * length sample_chain - 1 /\
    (forall i, nth_error bijections (2 * i) = nth_error sample_chain i) /\
    (forall i, S i < length sample_chain ->
               nth_error bijections (2 * i + 1) = Some Flip_bijection).
Proof.
  apply (@intertwine_permute_flip nat (fun _ _ _ => inr [])
           sample_chain "Flip"%string None None).
  reflexivity.
Defined.

Lemma intertwine_permute_random_witness :
  intertwine_permute
    (fun (_ : option nat) _ n => inr (repeat [1; 0]%Z n))
    sample_chain "RANDOM"%string (Some 0) (Some 2)
  = inl TypeError.
Proof.
  apply (proj2 (proj2 (@intertwine_permute_random nat
                         (fun _ _ n => inr (repeat [1; 0]%Z n))
                         sample_chain "RANDOM"%string (Some 0) (Some 2)
                         eq_refl))
         (Permute_bijection (mkPermute [2; 0; 1]%Z [1; 2; 0]%Z))
         [Flip_bijection] [1; 0]%Z [[1; 0]%Z]);
    reflexivity.
Defined.

Lemma intertwine_permute_other_witness :
  intertwine_permute (fun (_ : option nat) _ _ => inr [])
    sample_chain "none"%string None None
  = inr None.
Proof.
  apply (@intertwine_permute_other nat (fun _ _ _ => inr [])
           sample_chain "none"%string None None);
    discriminate.
Defined.

(** X12. [default_permute_strategy] returns a strategy exactly for
    [dim >= 1]: "none" for 1, "flip" for 2, "random" from 3 on; for
    [dim <= 0] the dictionary lookup raises [KeyError]. *)
Theorem default_permute_strategy_cases (dim : Z) :
  ((dim <= 0)%Z <-> default_permute_strategy dim = inl KeyError) /\
  (dim = 1%Z <-> default_permute_strategy dim = inr "none"%string) /\
  (dim = 2%Z <-> default_permute_strategy dim = inr "flip"%string) /\
  ((3 <= dim)%Z <-> default_permute_strategy dim = inr "random"%string).
Proof.
  unfold default_permute_strategy.
  destruct (Z.leb_spec dim 2), (Z.eqb_spec dim 1), (Z.eqb_spec dim 2);
    repeat split; intros; try discriminate; try lia; reflexivity.
Qed.

Lemma default_permute_strategy_cases_witness :
  default_permute_strategy (-1) = inl KeyError /\
  default_permute_strategy 5 = inr "random"%string.
Proof.
  split.
  - apply (proj1 (proj1 (default_permute_strategy_cases (-1)))). lia.
  - apply (proj1 (proj2 (proj2 (proj2 (default_permute_strategy_cases 5))))).
    lia.
Defined.


(** ** The block-diagonal expansion and its use in the fold *)

(** What [_3d_log_det] builds from [n_blocks * d] values. *)
Lemma log_det_3d_spec (vals : list float) (n_blocks d : nat) :
  0 < n_blocks ->
  length vals = n_blocks * d ->
  exists log_det,
    _3d_log_det vals n_blocks = Ok log_det /\
    has_shape n_blocks d d log_det /\
    forall i j k, i < n_blocks -> j < d -> k < d ->
      entry log_det i j k
      = if j =? k then nth (i * d + j) vals NaN else NInf.
Proof.
  intros Hn Hl. unfold _3d_log_det.
  destruct (Nat.eqb_spec n_blocks 0); [lia|].
  assert (length vals / n_blocks = d) as ->
      by (rewrite Hl, Nat.mul_comm; now apply Nat.div_mul).
  unfold reshape. rewrite <- Hl, Nat.eqb_refl. cbn [bind].
  eexists. split; [reflexivity|].
  set (v := map (fun i => firstn d (skipn (i * d) vals)) (seq 0 n_blocks)).
  assert (length v = n_blocks) as Hv
      by (unfold v; now rewrite length_map, length_seq).
  assert (forall i, i < n_blocks ->
            nth i (at_diagonal_set d (full n_blocks d d NInf) v) []
            = set_diagonal d (repeat (repeat NInf d) d)
                (firstn d (skipn (i * d) vals))) as Hblock.
  { intros i Hi. unfold at_diagonal_set, full.
    rewrite nth_indep
      with (d' := (fun mv : matrix * list float =>
                     set_diagonal d (fst mv) (snd mv)) ([], []))
      by (rewrite length_map, length_combine, repeat_length; lia).
    rewrite (map_nth (fun mv => set_diagonal d (fst mv) (snd mv))).
    rewrite combine_nth by (now rewrite repeat_length).
    cbn [fst snd]. rewrite nth_repeat_lt by assumption. f_equal.
    unfold v.
    rewrite nth_indep with (d' := firstn d (skipn (0 * d) vals))
      by (now rewrite length_map, length_seq).
    rewrite (map_nth (fun i => firstn d (skipn (i * d) vals))).
    now rewrite seq_nth. }
  assert (length (at_diagonal_set d (full n_blocks d d NInf) v) = n_blocks)
    as Hlen.
  { unfold at_diagonal_set, full.
    rewrite length_map, length_combine, repeat_length. lia. }
  split; [split; [exact Hlen|]|].
  - apply Forall_nth. intros i m0 Hi.
    unfold array3, matrix in *. rewrite Hlen in Hi.
    rewrite nth_indep with (d' := []) by lia.
    rewrite Hblock by assumption. split.
    + now rewrite set_diagonal_length, repeat_length.
    + apply Forall_nth. intros j r0 Hj.
      rewrite set_diagonal_length, repeat_length in Hj.
      rewrite nth_indep with (d' := [])
        by (now rewrite set_diagonal_length, repeat_length).
      now apply set_diagonal_row_length.
  - intros i j k Hi Hj Hk. unfold entry.
    rewrite Hblock, set_diagonal_full by assumption.
    destruct (j =? k); [|reflexivity]. now apply reshape_row.
Qed.

Section DiagonalBlocks.

Lemma fin_logmag v : is_fin v = true -> is_logmag v = true.
Proof. now destruct v. Qed.

(** A square block that is finite on its diagonal and minus infinity
    elsewhere has a finite maximum in every row and column. *)
Lemma diagonal_block_finite (m : matrix) d (v : nat -> float) :
  length m = d -> Forall (fun row => length row = d) m ->
  (forall j k, j < d -> k < d ->
               nth k (nth j m []) NaN = if j =? k then v j else NInf) ->
  (forall j, j < d -> is_fin (v j) = true) ->
  rows_finite_max m = true /\ cols_finite_max m = true.
Proof.
  intros Hlen Hrows Hentry Hfin. rewrite Forall_forall in Hrows.
  assert (forall j k, j < d -> k < d ->
            is_logmag (nth k (nth j m []) NaN) = true) as Hlog.
  { intros j k Hj Hk. rewrite Hentry by assumption.
    destruct (j =? k); [now apply fin_logmag, Hfin|reflexivity]. }
  split.
  - unfold rows_finite_max. apply forallb_forall. intros row Hrow.
    pose proof (Hrows _ Hrow) as Hrl.
    apply (In_nth _ _ []) in Hrow as (j & Hj & <-). rewrite Hlen in Hj.
    apply log_magnitudes_intro with (k := j).
    + apply forallb_forall. intros u Hu.
      apply (In_nth _ _ NaN) in Hu as (k & Hk & <-). rewrite Hrl in Hk.
      now apply Hlog.
    + now rewrite Hrl.
    + rewrite Hentry, Nat.eqb_refl by assumption. now apply Hfin.
  - unfold cols_finite_max. apply forallb_forall. intros l Hl.
    apply in_seq in Hl.
    assert (ncols m = d) as Hnc.
    { destruct m as [|row m']; [unfold ncols in *; simpl in *; lia|].
      apply Hrows. now left. }
    rewrite Hnc in Hl.
    apply log_magnitudes_intro with (k := l).
    + apply forallb_forall. intros u Hu.
      apply (In_nth _ _ NaN) in Hu as (j & Hj & <-).
      rewrite column_length, Hlen in Hj. rewrite nth_column.
      apply Hlog; lia.
    + rewrite column_length. lia.
    + rewrite nth_column, Hentry, Nat.eqb_refl by lia. apply Hfin. lia.
Qed.

Lemma nth_fin (vals : list float) k :
  forallb is_fin vals = true -> k < length vals ->
  is_fin (nth k vals NaN) = true.
Proof.
  intros H Hk. rewrite forallb_forall in H. now apply H, nth_In.
Qed.

Lemma block_index n d i j : i < n -> j < d -> i * d + j < n * d.
Proof. nia. Qed.

End DiagonalBlocks.

(** X13. [_3d_log_det] returns an array exactly when [n_blocks >= 1]
    divides the number of values, and then one of shape
    [(n_blocks, d, d)] with [d] the quotient; with no blocks the division
    raises [ZeroDivisionError], and a remainder makes the reshape
    raise. *)
Theorem log_det_3d_outcomes (vals : list float) (n_blocks : nat) :
  (n_blocks = 0 -> _3d_log_det vals n_blocks = Raise ZeroDivisionError) /\
  (0 < n_blocks -> length vals mod n_blocks <> 0 ->
   _3d_log_det vals n_blocks = Raise ShapeError) /\
  (0 < n_blocks -> length vals mod n_blocks = 0 ->
   exists log_det,
     _3d_log_det vals n_blocks = Ok log_det /\
     has_shape n_blocks (length vals / n_blocks) (length vals / n_blocks)
       log_det).
Proof.
  split; [now intros ->|]. split.
  - intros Hn Hmod. unfold _3d_log_det, reshape.
    destruct (Nat.eqb_spec n_blocks 0); [lia|].
    destruct (Nat.eqb_spec (n_blocks * (length vals / n_blocks))
                (length vals)) as [E|_]; [|reflexivity].
    exfalso. apply Hmod.
    pose proof (Nat.div_mod_eq (length vals) n_blocks). lia.
  - intros Hn Hmod.
    assert (length vals = n_blocks * (length vals / n_blocks)) as Hl.
    { pose proof (Nat.div_mod_eq (length vals) n_blocks). lia. }
    destruct (@log_det_3d_spec vals n_blocks _ Hn Hl) as (log_det & E & Hs & _).
    now exists log_det.
Qed.

Lemma log_det_3d_outcomes_witness :
  _3d_log_det [Fin 1; Fin 2; Fin 3] 2 = Raise ShapeError /\
  exists log_det,
    _3d_log_det [Fin 1; Fin 2; Fin 3; Fin 4] 2 = Ok log_det /\
    has_shape 2 (4 / 2) (4 / 2) log_det.
Proof.
  split.
  - apply (proj1 (proj2 (log_det_3d_outcomes [Fin 1; Fin 2; Fin 3] 2))).
    + lia.
    + discriminate.
  - apply (proj2 (proj2 (log_det_3d_outcomes
                           [Fin 1; Fin 2; Fin 3; Fin 4] 2))).
    + lia.
    + reflexivity.
Defined.

(** X14. When the values are finite, every row and every column of
    every block that [_3d_log_det] returns holds exactly one finite
    entry among minus infinities, so the maxima [logmatmulexp] shifts by
    are finite. *)
Theorem log_det_3d_finite_shifts (vals : list float) (n_blocks d : nat) :
  0 < n_blocks ->
  length vals = n_blocks * d ->
  forallb is_fin vals = true ->
  exists log_det,
    _3d_log_det vals n_blocks = Ok log_det /\
    forallb rows_finite_max log_det = true /\
    forallb cols_finite_max log_det = true.
Proof.
  intros Hn Hl Hfin.
  destruct (@log_det_3d_spec vals n_blocks d Hn Hl)
    as (log_det & E & Hs & Hentry).
  exists log_det. split; [exact E|].
  assert (forall m, In m log_det ->
            rows_finite_max m = true /\ cols_finite_max m = true) as Hm.
  { intros m Hin. destruct (shape_block _ Hs Hin) as [Hlen Hrows].
    apply (In_nth _ _ []) in Hin as (i & Hi & <-).
    destruct Hs as [Hnl _]. unfold array3, matrix in *. rewrite Hnl in Hi.
    apply diagonal_block_finite
      with (d := d) (v := fun j => nth (i * d + j) vals NaN);
      try assumption.
    - intros j k Hj Hk. now apply Hentry.
    - intros j Hj. apply nth_fin; [assumption|].
      rewrite Hl. now apply block_index. }
  split; apply forallb_forall; intros m Hin; now apply Hm.
Qed.

Lemma log_det_3d_finite_shifts_witness :
  exists log_det,
    _3d_log_det [Fin 1; Fin 2; Fin 3; Fin 4] 2 = Ok log_det /\
    forallb rows_finite_max log_det = true /\
    forallb cols_finite_max log_det = true.
Proof.
  apply (@log_det_3d_finite_shifts [Fin 1; Fin 2; Fin 3; Fin 4] 2 2).
  - lia.
  - reflexivity.
  - reflexivity.
Defined.


Section Activation.

Variable _tanh_log_grad : list float -> list float.

(** X15. The default activation, on a point of [n_blocks * d]
    coordinates whose log-derivatives come back one per coordinate:
    whatever the condition, it returns the coordinate-wise [tanh] and
    the array of shape [(n_blocks, d, d)] that carries the
    log-derivatives on the block diagonals and minus infinity
    elsewhere. *)
Theorem TanhBNAF_call (n_blocks d : nat) (x : list float)
  (c c' : condition) :
  0 < n_blocks ->
  length x = n_blocks * d ->
  length (_tanh_log_grad x) = length x ->
  _TanhBNAF _tanh_log_grad n_blocks x c
  = _TanhBNAF _tanh_log_grad n_blocks x c' /\
  exists jac,
    _TanhBNAF _tanh_log_grad n_blocks x c = Ok (map Float.tanh x, jac) /\
    has_shape n_blocks d d jac /\
    forall i j k, i < n_blocks -> j < d -> k < d ->
      entry jac i j k
      = if j =? k then nth (i * d + j) (_tanh_log_grad x) NaN else NInf.
Proof.
  intros Hn Hx Hg. split; [reflexivity|].
  rewrite Hx in Hg.
  destruct (@log_det_3d_spec (_tanh_log_grad x) n_blocks d Hn Hg)
    as (jac & E & Hs & Hentry).
  exists jac. unfold _TanhBNAF. rewrite E.
  split; [reflexivity|]. split; [exact Hs|exact Hentry].
Qed.

End Activation.

Lemma TanhBNAF_call_witness :
  _TanhBNAF (fun x => x) 2 [Fin 1; Fin 2; Fin 3; Fin 4] None
  = _TanhBNAF (fun x => x) 2 [Fin 1; Fin 2; Fin 3; Fin 4] (Some []) /\
  exists jac,
    _TanhBNAF (fun x => x) 2 [Fin 1; Fin 2; Fin 3; Fin 4] None
    = Ok (map Float.tanh [Fin 1; Fin 2; Fin 3; Fin 4], jac) /\
    has_shape 2 2 2 jac /\
    forall i j k, i < 2 -> j < 2 -> k < 2 ->
      entry jac i j k
      = if j =? k
        then nth (i * 2 + j) ((fun x => x) [Fin 1; Fin 2; Fin 3; Fin 4]) NaN
        else NInf.
Proof.
  apply (@TanhBNAF_call (fun x => x) 2 2 [Fin 1; Fin 2; Fin 3; Fin 4]
           None (Some [])).
  - lia.
  - reflexivity.
  - reflexivity.
Defined.

(** X16. On shapes [(n,a,b)] and [(n,b,c)] with [b >= 1], [logmatmulexp]
    returns an array of shape [(n,a,c)], whatever the entries.  It raises
    when the contracted axis is empty, and when the numbers of blocks
    differ and neither is one. *)
Theorem logmatmulexp_shapes (n a b c : nat) (x y : array3) :
  (has_shape n a b x -> has_shape n b c y -> 0 < b ->
   exists z, logmatmulexp x y = Ok z /\ has_shape n a c z) /\
  (has_shape n a 0 x -> has_shape n 0 c y -> 0 < n ->
   logmatmulexp x y = Raise ShapeError) /\
  (length x <> length y -> length x <> 1 -> length y <> 1 ->
   logmatmulexp x y = Raise ShapeError).
Proof.
  split; [|split].
  - intros Hx Hy Hb. eexists. split.
    + apply (logmatmulexp_shaped Hx Hy Hb).
    + now apply blocks_shape with (b := b).
  - intros [Hnx _] [Hny Hy] Hn. unfold logmatmulexp, broadcast_batch.
    rewrite Hnx, Hny, Nat.eqb_refl. cbn [bind].
    destruct x as [|mx x']; [simpl in Hnx; lia|].
    destruct y as [|my y']; [simpl in Hny; lia|].
    inversion Hy as [|? ? [Hmy _] _]; subst.
    cbn [combine forallb]. unfold reducible at 1. cbn [snd].
    rewrite Hmy. reflexivity.
  - intros Hne Hx1 Hy1. unfold logmatmulexp, broadcast_batch.
    destruct (Nat.eqb_spec (length x) (length y)); [contradiction|].
    destruct (Nat.eqb_spec (length x) 1); [contradiction|].
    destruct (Nat.eqb_spec (length y) 1); [contradiction|reflexivity].
Qed.

Lemma logmatmulexp_shapes_witness :
  (exists z, logmatmulexp [ones] [dead_column] = Ok z /\ has_shape 1 2 2 z) /\
  logmatmulexp [[[]]] [[]] = Raise ShapeError /\
  logmatmulexp [ones; ones] [ones; ones; ones] = Raise ShapeError.
Proof.
  split; [|split].
  - apply (proj1 (@logmatmulexp_shapes 1 2 2 2 [ones] [dead_column])).
    + split; [reflexivity|repeat constructor].
    + split; [reflexivity|repeat constructor].
    + lia.
  - apply (proj1 (proj2 (@logmatmulexp_shapes 1 1 0 0 [[[]]] [[]]))).
    + split; [reflexivity|repeat constructor].
    + split; [reflexivity|repeat constructor].
    + lia.
  - apply (proj2 (proj2 (@logmatmulexp_shapes 0 0 0 0 [ones; ones]
                           [ones; ones; ones])));
      discriminate.
Defined.

Section ActivationInTheFold.

Local Open Scope R_scope.

Lemma rdot_no_magnitude (us : list R) : forall (col : list float),
  (forall k, nth k col NaN = NInf \/ nth k col NaN = NaN) ->
  rdot us (map magnitude col) = 0.
Proof.
  induction us as [|u us IH]; intros [|v col] H; simpl map;
    rewrite ?rdot_nil_l, ?rdot_nil_r, ?rdot_cons; try reflexivity.
  rewrite IH by (intros k; apply (H (S k))).
  destruct (H 0%nat) as [E|E]; simpl in E; subst v; simpl; lra.
Qed.

(** Against a column that is finite at one position only, the sum of
    products keeps one term. *)
Lemma rdot_one_hot v (us : list R) : forall (col : list float) l,
  (l < length us)%nat -> length col = length us ->
  (forall k, (k < length us)%nat ->
             nth k col NaN = if (k =? l)%nat then Fin v else NInf) ->
  rdot us (map magnitude col) = nth l us 0 * exp v.
Proof.
  induction us as [|u us IH]; intros [|w col] l Hl Hlen H;
    try (simpl in *; lia).
  simpl map. rewrite rdot_cons. destruct l as [|l].
  - pose proof (H 0%nat ltac:(simpl; lia)) as E. simpl in E. subst w.
    rewrite rdot_no_magnitude; [simpl; lra|].
    intros k. destruct (Nat.ltb_spec k (length us)) as [Hk|Hk].
    + left. apply (H (S k)). simpl. lia.
    + right. apply nth_overflow. simpl in Hlen. lia.
  - pose proof (H 0%nat ltac:(simpl; lia)) as E. simpl in E. subst w.
    rewrite (IH col l); simpl in *; try lia; [lra|].
    intros k Hk. apply (H (S k)). lia.
Qed.

Lemma exact_entry_one_hot v row col l :
  forallb is_logmag row = true ->
  (l < length row)%nat -> length col = length row ->
  (forall k, (k < length row)%nat ->
             nth k col NaN = if (k =? l)%nat then Fin v else NInf) ->
  exact_entry row col = Float.add (nth l row NaN) (Fin v).
Proof.
  intros Hlog Hl Hlen Hcol. unfold exact_entry.
  rewrite rdot_one_hot with (l := l) (v := v);
    rewrite ?length_map; try assumption.
  rewrite nth_magnitude.
  assert (is_logmag (nth l row NaN) = true) as Hv
      by (rewrite forallb_forall in Hlog; now apply Hlog, nth_In).
  destruct (nth l row NaN) as [r| | |]; try discriminate; simpl.
  - rewrite sign_pos by (apply Rmult_lt_0_compat; apply exp_pos).
    f_equal. now rewrite <- exp_plus, ln_exp.
  - now rewrite Rmult_0_l, sign_zero.
Qed.

(** A column of a block of diagonal log-derivatives holds one entry
    that is not minus infinity. *)
Lemma diagonal_column_flat (n d : nat) (vals : list float) (jac : array3)
  i l :
  has_shape n d d jac ->
  (forall i j k, (i < n)%nat -> (j < d)%nat -> (k < d)%nat ->
     entry jac i j k
     = if (j =? k)%nat then nth (i * d + j) vals NaN else NInf) ->
  (i < n)%nat -> flat (column l (nth i jac [])).
Proof.
  intros Hs Hentry Hi.
  destruct (shape_nth Hs Hi) as [Hlen Hrows].
  exists (nth l (nth l (nth i jac []) []) NaN).
  apply Forall_forall. intros u Hu.
  apply (In_nth _ _ NaN) in Hu as (k & Hk & <-).
  rewrite column_length, Hlen in Hk. rewrite nth_column.
  destruct (Nat.ltb_spec l d) as [Hl|Hl].
  - specialize (Hentry i k l Hi Hk Hl). unfold entry in Hentry.
    destruct (Nat.eqb_spec k l) as [Ekl|_];
      [right; now rewrite Ekl|now left].
  - right. rewrite Forall_forall in Hrows.
    rewrite (nth_overflow (nth k (nth i jac []) []))
      by (rewrite (Hrows (nth k (nth i jac []) [])); [lia|];
          apply nth_In; lia).
    rewrite (nth_overflow (nth i jac [])) by lia.
    now destruct l.
Qed.

End ActivationInTheFold.

(** X17. Composing a running Jacobian of log-magnitudes with the
    Jacobian of an activation adds, in every block, the activation's
    log-derivative of coordinate [l] to column [l], the log-domain form
    of multiplying by a diagonal matrix, as long as every finite entry
    of the running Jacobian is close enough to the maximum of its row
    for its shifted exponential not to underflow. *)
Theorem logmatmulexp_activation (n a d : nat) (x : array3)
  (vals : list float) :
  0 < n -> 0 < d ->
  has_shape n a d x ->
  forallb rows_finite_max x = true ->
  (forall i j, spread_normal (nth j (nth i x []) [])) ->
  length vals = n * d ->
  forallb is_fin vals = true ->
  exists jac z,
    _3d_log_det vals n = Ok jac /\
    logmatmulexp x jac = Ok z /\
    has_shape n a d z /\
    forall i j l, i < n -> j < a -> l < d ->
      entry z i j l = Float.add (entry x i j l) (nth (i * d + l) vals NaN).
Proof.
  intros Hn Hd Hx Hrows Hspread Hl Hfin.
  destruct (@log_det_3d_spec vals n d Hn Hl) as (jac & E & Hs & Hentry).
  exists jac. eexists. split; [exact E|].
  split; [apply (logmatmulexp_shaped Hx Hs Hd)|].
  split; [now apply blocks_shape with (b := d)|].
  intros i j l Hi Hj Hlt. unfold entry.
  pose proof Hx as [Hnx _]. pose proof Hs as [Hns _].
  rewrite nth_map_combine with (d1 := [] : matrix) (d2 := [] : matrix) by lia.
  cbn [fst snd].
  destruct (shape_nth Hx Hi) as [Ha Hxrows].
  destruct (shape_nth Hs Hi) as [Hjl Hjrows].
  destruct (shaped_rectangular Hjl Hd Hjrows) as [Hnc Hrect].
  assert (rows_finite_max (nth i jac []) = true /\
          cols_finite_max (nth i jac []) = true) as [_ Hjc].
  { apply diagonal_block_finite
      with (d := d) (v := fun j => nth (i * d + j) vals NaN);
      try assumption.
    - intros j' k Hj' Hk. now apply Hentry.
    - intros j' Hj'. apply nth_fin; [assumption|].
      rewrite Hl. now apply block_index. }
  assert (rows_finite_max (nth i x []) = true) as Hxr.
  { rewrite forallb_forall in Hrows. apply Hrows, nth_In. lia. }
  assert (forall row j', In row (nth i x []) ->
            products_normal row (column j' (nth i jac []))) as Hnormal.
  { intros row j' Hrow. apply (In_nth _ _ []) in Hrow as (k & _ & <-).
    apply products_normal_spread; [apply Hspread|].
    now apply diagonal_column_flat with (n := n) (d := d) (vals := vals). }
  destruct (block_exact (nth i x []) (nth i jac []) Hrect Hxr Hjc Hnormal)
    as [-> _].
  unfold exact_block. rewrite Hnc.
  rewrite nth_indep
    with (d' := (fun row =>
                   map (fun j0 => exact_entry row (column j0 (nth i jac [])))
                     (seq 0 d)) [])
    by (rewrite length_map; lia).
  rewrite (map_nth (fun row =>
                      map (fun j0 => exact_entry row
                                       (column j0 (nth i jac [])))
                        (seq 0 d))).
  rewrite nth_map_seq by assumption.
  assert (In (nth j (nth i x []) []) (nth i x [])) as Hin
      by (apply nth_In; lia).
  rewrite Forall_forall in Hxrows. pose proof (Hxrows _ Hin) as Hrl.
  assert (is_fin (nth (i * d + l) vals NaN) = true) as Hv
      by (apply nth_fin; [assumption|rewrite Hl; now apply block_index]).
  destruct (nth (i * d + l) vals NaN) as [v| | |] eqn:Ev; try discriminate.
  apply exact_entry_one_hot.
  - apply log_magnitudes_logmag. unfold rows_finite_max in Hxr.
    rewrite forallb_forall in Hxr. now apply Hxr.
  - now rewrite Hrl.
  - now rewrite column_length, Hrl.
  - intros k Hk. rewrite Hrl in Hk. rewrite nth_column.
    specialize (Hentry i k l Hi Hk Hlt). unfold entry in Hentry.
    rewrite Hentry. destruct (Nat.eqb_spec k l) as [Ekl|_];
      [rewrite Ekl; exact Ev|reflexivity].
Qed.

Lemma logmatmulexp_activation_witness :
  exists jac z,
    _3d_log_det [Fin 1; Fin 2] 1 = Ok jac /\
    logmatmulexp [log_identity] jac = Ok z /\
    has_shape 1 2 2 z /\
    forall i j l, i < 1 -> j < 2 -> l < 2 ->
      entry z i j l
      = Float.add (entry [log_identity] i j l)
          (nth (i * 2 + l) [Fin 1; Fin 2] NaN).
Proof.
  apply (@logmatmulexp_activation 1 2 2 [log_identity] [Fin 1; Fin 2]).
  - lia.
  - lia.
  - split; [reflexivity|repeat constructor].
  - reflexivity.
  - intros i j. apply spread_normal_flat, log_identity_flat_rows.
  - reflexivity.
  - reflexivity.
Defined.


(** ** The shapes through a constructed network *)

Section ChainedJacobians.

Variable n : nat.

Lemma chained_app a m c l1 : forall l2,
  chained n a m l1 -> chained n m c l2 -> chained n a c (l1 ++ l2).
Proof.
  revert a. induction l1 as [|jac l1 IH]; intros a l2 H1 H2; simpl in *.
  - now subst m.
  - destruct H1 as (m' & Hm' & Hs & H1). exists m'.
    split; [assumption|]. split; [assumption|now apply IH].
Qed.

Lemma chained_last a c l jac :
  chained n a c (l ++ [jac]) ->
  exists m, chained n a m l /\ 0 < c /\ has_shape n c m jac.
Proof.
  revert a. induction l as [|j l IH]; intros a H; simpl in *.
  - destruct H as (m & Hm & Hs & <-). now exists a.
  - destruct H as (m & Hm & Hs & H).
    destruct (IH m H) as (m' & H' & Hc & Hs').
    exists m'. split; [|split; assumption]. exists m.
    split; [assumption|]. split; assumption.
Qed.

(** Composing the earlier Jacobians into a running one never raises
    and ends with the shape of the whole chain. *)
Lemma compose_chained l : forall a m c running,
  chained n a m l -> has_shape n c m running ->
  exists z, compose_into running (rev l) = Ok z /\ has_shape n c a z.
Proof.
  induction l as [|jac l IH] using rev_ind; intros a m c running Hl Hr.
  - simpl in *. subst m. now exists running.
  - apply chained_last in Hl as (m' & Hl & Hm & Hs).
    rewrite rev_app_distr. cbn [rev app compose_into].
    destruct (logmatmulexp_shaped Hr Hs Hm) as [-> _]. cbn [bind].
    apply IH with (m := m'); [assumption|].
    now apply blocks_shape with (b := m).
Qed.

Lemma fold_chained a c jacs :
  jacs <> [] -> chained n a c jacs ->
  exists z, fold_right_to_left jacs = Ok z /\ has_shape n c a z.
Proof.
  intros Hne H. destruct jacs as [|jac l] using rev_ind; [contradiction|].
  clear IHl. apply chained_last in H as (m & Hl & Hc & Hs).
  unfold fold_right_to_left. rewrite rev_app_distr. cbn [rev app].
  now apply compose_chained with (m := m).
Qed.

End ChainedJacobians.

Section NetworkShapes.

Variable KeyArray : Type.
Variable subkey : KeyArray -> nat -> nat -> KeyArray.
Variable linear_call : KeyArray -> nat -> nat * nat -> nat -> Callable.
Variable _tanh_log_grad : list float -> list float.
Variables dim block_dim : nat.

Hypothesis dim_positive : 0 < dim.
Hypothesis block_dim_positive : 0 < block_dim.

(** A masked-linear layer of block shape [(o, i)] maps [dim * i]
    coordinates to [dim * o] and returns a Jacobian of [dim] blocks of
    shape [(o, i)]. *)
Hypothesis linear_shapes :
  forall key block_shape cd x c,
    length x = dim * snd block_shape ->
    exists y jac,
      linear_call key dim block_shape cd x c = Ok (y, jac) /\
      length y = dim * fst block_shape /\
      has_shape dim (fst block_shape) (snd block_shape) jac.

Hypothesis tanh_log_grad_length :
  forall x, length (_tanh_log_grad x) = length x.

Lemma forward_rest_app l1 : forall l2 x,
  forward_rest linear_call (l1 ++ l2) x
  = ('(x', jacs1) <- forward_rest linear_call l1 x ;;
     '(y, jacs2) <- forward_rest linear_call l2 x' ;;
     Ok (y, jacs1 ++ jacs2)).
Proof.
  induction l1 as [|l l1 IH]; intros l2 x.
  - cbn [app forward_rest bind].
    now destruct (forward_rest linear_call l2 x) as [[y jacs]|e].
  - cbn [app forward_rest].
    destruct (call linear_call l x None) as [[x' jac]|e]; [|reflexivity].
    cbn [bind]. rewrite IH.
    destruct (forward_rest linear_call l1 x') as [[x'' jacs1]|e];
      [|reflexivity].
    cbn [bind].
    now destruct (forward_rest linear_call l2 x'') as [[y jacs2]|e].
Qed.

Lemma intersperse_cons sep (l0 : layer KeyArray) ls :
  intersperse sep (l0 :: ls) = l0 :: flat_map (fun l => [sep; l]) ls.
Proof.
  revert l0. induction ls as [|l ls IH]; intros l0; [reflexivity|].
  change (intersperse sep (l0 :: l :: ls))
    with (l0 :: sep :: intersperse sep (l :: ls)).
  now rewrite IH.
Qed.

(** The activation followed by a masked-linear layer of block shape
    [(o, block_dim)]. *)
Lemma forward_pair key o cd x :
  0 < o -> length x = dim * block_dim ->
  exists y jacs,
    forward_rest linear_call
      [Activation KeyArray (_TanhBNAF _tanh_log_grad dim);
       BlockAutoregressiveLinear key dim (o, block_dim) cd] x
    = Ok (y, jacs) /\
    length y = dim * o /\
    chained dim block_dim o jacs.
Proof.
  intros Ho Hx. cbn [forward_rest call].
  assert (length (_tanh_log_grad x) = dim * block_dim) as Hg
      by now rewrite tanh_log_grad_length.
  destruct (@log_det_3d_spec (_tanh_log_grad x) dim block_dim
              dim_positive Hg) as (jac & E & Hs & _).
  unfold _TanhBNAF. rewrite E. cbn [bind].
  destruct (linear_shapes key (o, block_dim) cd (map Float.tanh x) None)
    as (y & jac' & E' & Hy & Hs'); [now rewrite length_map|].
  rewrite E'. cbn [bind]. exists y. eexists. split; [reflexivity|].
  split; [exact Hy|]. cbn [chained fst snd] in *.
  exists block_dim. split; [assumption|]. split; [assumption|].
  exists o. split; [assumption|]. split; [assumption|reflexivity].
Qed.

(** Hidden layers: any number of such pairs of width [block_dim]. *)
Lemma forward_hidden (items : list (KeyArray * (nat * nat) * nat)) :
  forall x,
    Forall (fun it => snd (fst it) = (block_dim, block_dim)) items ->
    length x = dim * block_dim ->
    exists y jacs,
      forward_rest linear_call
        (flat_map
           (fun l => [Activation KeyArray (_TanhBNAF _tanh_log_grad dim); l])
           (map (fun it => BlockAutoregressiveLinear (fst (fst it)) dim
                             (snd (fst it)) (snd it)) items)) x
      = Ok (y, jacs) /\
      length y = dim * block_dim /\
      chained dim block_dim block_dim jacs.
Proof.
  induction items as [|it items IH]; intros x Hit Hx.
  - exists x, []. now repeat split.
  - inversion Hit as [|? ? Hs Hits]; subst.
    cbn [map flat_map]. rewrite Hs.
    rewrite forward_rest_app.
    destruct (@forward_pair (fst (fst it)) block_dim (snd it) x
                block_dim_positive Hx) as (x' & jacs1 & -> & Hx' & Hc1).
    cbn [bind].
    destruct (IH x' Hits Hx') as (y & jacs2 & -> & Hy & Hc2).
    cbn [bind]. exists y, (jacs1 ++ jacs2). split; [reflexivity|].
    split; [exact Hy|]. now apply chained_app with (m := block_dim).
Qed.

(** The layer list of a network of positive depth: the first
    masked-linear layer, the hidden pairs, and the last pair. *)
Lemma init_layers_split key cond_dim depth act :
  0 < depth ->
  exists k0 mid kl cdl,
    layers (BlockAutoregressiveNetwork_init subkey _tanh_log_grad key dim
              cond_dim depth block_dim act)
    = BlockAutoregressiveLinear k0 dim (block_dim, 1) cond_dim
      :: flat_map
           (fun l => [Activation KeyArray
                        (activation
                           (BlockAutoregressiveNetwork_init subkey
                              _tanh_log_grad key dim cond_dim depth
                              block_dim act));
                      l])
           (map (fun it => BlockAutoregressiveLinear (fst (fst it)) dim
                             (snd (fst it)) (snd it)) mid
            ++ [BlockAutoregressiveLinear kl dim (1, block_dim) cdl]) /\
    Forall (fun it => snd (fst it) = (block_dim, block_dim)) mid.
Proof.
  intros Hd. unfold BlockAutoregressiveNetwork_init.
  cbn [layers activation].
  destruct (Nat.eqb_spec depth 0) as [->|_]; [lia|].
  set (a := match act with None => _ | Some a => a end).
  set (shapes := [(block_dim, 1)] ++ repeat (block_dim, block_dim) (depth - 1)
                   ++ [(1, block_dim)]).
  set (conds := [cond_dim] ++ repeat 0 depth).
  set (keys := split subkey key (depth + 1)).
  assert (length keys = depth + 1) as Hk
      by (unfold keys, split; now rewrite length_map, length_seq).
  assert (length shapes = depth + 1) as Hs
      by (unfold shapes; rewrite !length_app, repeat_length; simpl; lia).
  assert (length conds = depth + 1) as Hc
      by (unfold conds; rewrite length_app, repeat_length; simpl; lia).
  assert (length (combine keys shapes) = depth + 1) as Hks
      by (rewrite length_combine; lia).
  set (items := combine (combine keys shapes) conds).
  set (mk := fun it : KeyArray * (nat * nat) * nat =>
               BlockAutoregressiveLinear (fst (fst it)) dim
                 (snd (fst it)) (snd it)).
  rewrite fold_left_pointwise
    with (g := fun layers it => layers ++ [mk it; Activation KeyArray a])
    by (now intros ? [[? ?] ?]).
  rewrite (extend_loop
             (fun it : KeyArray * (nat * nat) * nat =>
                [mk it; Activation KeyArray a]) items []).
  cbn [app]. rewrite removelast_pairs.
  assert (map (fun it => snd (fst it)) items = shapes) as Hshapes.
  { unfold items. rewrite <- (map_map fst snd).
    rewrite map_fst_combine by lia. now rewrite map_snd_combine by lia. }
  assert (map (fun it : KeyArray * (nat * nat) * nat => snd it) items
          = conds) as Hconds
      by (unfold items; now rewrite map_snd_combine by lia).
  unfold shapes in Hshapes. cbn [app] in Hshapes.
  apply map_eq_cons in Hshapes as (it0 & rest & Hitems & Hs0 & Hrest).
  apply map_eq_app in Hrest as (mid & lst & -> & Hmid & Hlst).
  apply map_eq_cons in Hlst as (itl & tl & -> & Hsl & Htl).
  apply map_eq_nil in Htl. subst tl.
  rewrite Hitems in Hconds. unfold conds in Hconds. cbn [app map] in Hconds.
  injection Hconds as Hcd0 _.
  rewrite Hitems. cbn [map]. rewrite intersperse_cons, map_app. cbn [map].
  exists (fst (fst it0)), mid, (fst (fst itl)), (snd itl).
  unfold mk at 1 3. rewrite Hs0, Hsl, Hcd0. split; [reflexivity|].
  apply Forall_forall. intros it Hit.
  apply (repeat_spec (depth - 1)). rewrite <- Hmid.
  now apply (in_map (fun it => snd (fst it))).
Qed.

(** X19. Through a network built by [__init__] with the default
    activation, on a point of [dim] coordinates, the shapes chain: no
    call raises, the point returned has [dim] coordinates, the
    per-layer Jacobians compose from one input per block to one output
    per block, their fold has shape [(dim, 1, 1)], and the
    log-determinant is the sum of its [dim] entries. *)
Theorem BlockAutoregressiveNetwork_shapes_chain (key : KeyArray)
  (cond_dim depth : nat) (x : list float) (c : condition) :
  length x = dim ->
  let self :=
    BlockAutoregressiveNetwork_init subkey _tanh_log_grad key dim cond_dim
      depth block_dim None in
  exists y jacs logdet,
    forward linear_call (layers self) x c = Ok (y, jacs) /\
    length y = dim /\
    chained dim 1 1 jacs /\
    fold_right_to_left jacs = Ok logdet /\
    has_shape dim 1 1 logdet /\
    BlockAutoregressiveNetwork_transform_and_log_abs_det_jacobian
      linear_call self x c = Ok (y, sum3 logdet) /\
    BlockAutoregressiveNetwork_transform linear_call self x c = Ok y.
Proof.
  intros Hx self.
  assert (exists y jacs,
            forward linear_call (layers self) x c = Ok (y, jacs) /\
            length y = dim /\ jacs <> [] /\ chained dim 1 1 jacs)
    as (y & jacs & Hf & Hy & Hne & Hch).
  { destruct depth as [|d].
    - cbn [self BlockAutoregressiveNetwork_init layers Nat.eqb forward call].
      destruct (linear_shapes key (1, 1) cond_dim x c)
        as (y & jac & -> & Hy & Hs); [cbn [snd]; lia|].
      cbn [bind forward_rest fst snd] in *.
      exists y, [jac]. split; [reflexivity|]. split; [lia|].
      split; [discriminate|]. exists 1. split; [lia|]. now split.
    - destruct (@init_layers_split key cond_dim (S d) None ltac:(lia))
        as (k0 & mid & kl & cdl & Hl & Hmid).
      unfold self. rewrite Hl. cbn [forward call activation
        BlockAutoregressiveNetwork_init].
      destruct (linear_shapes k0 (block_dim, 1) cond_dim x c)
        as (x0 & jac0 & -> & Hx0 & Hs0); [cbn [snd]; lia|].
      cbn [bind fst snd] in *. rewrite flat_map_app, forward_rest_app.
      destruct (forward_hidden x0 Hmid Hx0)
        as (x1 & jacsH & -> & Hx1 & HcH).
      cbn [bind flat_map app].
      destruct (@forward_pair kl 1 cdl x1 ltac:(lia) Hx1)
        as (y & jacsL & -> & Hy & HcL).
      cbn [bind]. exists y, (jac0 :: jacsH ++ jacsL).
      split; [reflexivity|]. split; [lia|]. split; [discriminate|].
      exists block_dim. split; [assumption|]. split; [assumption|].
      now apply chained_app with (m := block_dim). }
  destruct (@fold_chained dim 1 1 jacs Hne Hch)
    as (logdet & Hfold & Hshape).
  exists y, jacs, logdet.
  destruct (network_forward linear_call self x c) as [E1 E2].
  rewrite E1, E2, Hf. cbn [bind]. rewrite Hfold.
  split; [reflexivity|]. split; [exact Hy|]. split; [exact Hch|].
  split; [reflexivity|]. split; [exact Hshape|]. split; reflexivity.
Qed.

(** X18. With [depth = 0] nothing is composed: the point is the one
    the single masked-linear layer returns, with the condition, and the
    log-determinant is the sum of the entries of that layer's
    Jacobian. *)
Theorem BlockAutoregressiveNetwork_depth_zero (key : KeyArray)
  (cond_dim : nat) (act : option Callable) (x : list float)
  (c : condition) :
  let self :=
    BlockAutoregressiveNetwork_init subkey _tanh_log_grad key dim cond_dim
      0 block_dim act in
  BlockAutoregressiveNetwork_transform_and_log_abs_det_jacobian
    linear_call self x c
  = ('(y, jac) <- linear_call key dim (1, 1) cond_dim x c ;;
     Ok (y, sum3 jac)) /\
  BlockAutoregressiveNetwork_transform linear_call self x c
  = fmap fst (linear_call key dim (1, 1) cond_dim x c).
Proof.
  intros self.
  unfold BlockAutoregressiveNetwork_transform_and_log_abs_det_jacobian,
    BlockAutoregressiveNetwork_transform.
  cbn [self BlockAutoregressiveNetwork_init layers Nat.eqb call for_each].
  destruct (linear_call key dim (1, 1) cond_dim x c) as [[y jac]|e];
    split; reflexivity.
Qed.

End NetworkShapes.

Lemma full_has_shape n a b v : has_shape n a b (full n a b v).
Proof.
  unfold full. split; [apply repeat_length|].
  apply Forall_forall. intros m Hm. apply repeat_spec in Hm. subst m.
  split; [apply repeat_length|].
  apply Forall_forall. intros row Hrow. apply repeat_spec in Hrow. subst row.
  apply repeat_length.
Qed.

Lemma BlockAutoregressiveNetwork_shapes_chain_witness :
  exists y jacs logdet,
    forward zeros_linear_call
      (layers (BlockAutoregressiveNetwork_init (fun k _ i => k + i)
                 (fun x => x) 7 2 0 1 2 None))
      [Fin 0; Fin 0] None
    = Ok (y, jacs) /\
    length y = 2 /\
    chained 2 1 1 jacs /\
    fold_right_to_left jacs = Ok logdet /\
    has_shape 2 1 1 logdet /\
    BlockAutoregressiveNetwork_transform_and_log_abs_det_jacobian
      zeros_linear_call
      (BlockAutoregressiveNetwork_init (fun k _ i => k + i) (fun x => x)
         7 2 0 1 2 None)
      [Fin 0; Fin 0] None
    = Ok (y, sum3 logdet) /\
    BlockAutoregressiveNetwork_transform zeros_linear_call
      (BlockAutoregressiveNetwork_init (fun k _ i => k + i) (fun x => x)
         7 2 0 1 2 None)
      [Fin 0; Fin 0] None
    = Ok y.
Proof.
  apply (@BlockAutoregressiveNetwork_shapes_chain nat (fun k _ i => k + i)
           zeros_linear_call (fun x => x) 2 2).
  - lia.
  - lia.
  - intros key block_shape cd x c Hx. eexists. eexists.
    split; [reflexivity|]. split; [apply repeat_length|].
    apply full_has_shape.
  - reflexivity.
  - reflexivity.
Defined.


(** ** Volume-preserving chains, and rows that poison the result *)

(** X20. A chain reports a zero log-determinant when its children do:
    if, on the points of a domain the children keep, every child
    succeeds with a log-determinant of zero, as [Permute] and [Flip] do
    on the vectors of their dimension, then so does the chain. *)
Theorem Chain_zero_logdet (D : list float -> Prop) (bs : list Bijection)
  (c : condition) :
  Forall (fun b => forall x, D x -> exists y,
              b.(transform_and_log_abs_det_jacobian) x c = Ok (y, Fin 0) /\
              D y) bs ->
  forall x, D x -> exists y,
    Chain.transform_and_log_abs_det_jacobian bs x c = Ok (y, Fin 0) /\ D y.
Proof.
  induction 1 as [|b bs Hb _ IH]; intros x Hx.
  - now exists x.
  - rewrite Chain_tlad_cons.
    destruct (Hb x Hx) as (z & -> & Hz). cbn [bind].
    destruct (IH z Hz) as (y & -> & Hy). cbn [bind].
    exists y. now rewrite add_0_l.
Qed.

Lemma Chain_zero_logdet_witness :
  exists y,
    Chain.transform_and_log_abs_det_jacobian sample_chain
      [Fin 1; NInf; PInf] None = Ok (y, Fin 0) /\
    length y = 3.
Proof.
  apply (@Chain_zero_logdet (fun x => length x = 3) sample_chain None).
  - constructor; [|constructor; [|constructor]].
    + intros [|u [|v [|w [|? ?]]]] Hx; try discriminate.
      eexists. split; reflexivity.
    + intros x Hx. eexists. split; [reflexivity|].
      unfold flip. now rewrite length_rev.
  - reflexivity.
Defined.

Section PoisonedRows.

Lemma fold_add_NaN l : fold_left Float.add l NaN = NaN.
Proof. induction l as [|v l IH]; [reflexivity|]. exact IH. Qed.

Lemma fold_max_NaN l : fold_left Float.max l NaN = NaN.
Proof. induction l as [|v l IH]; [reflexivity|]. exact IH. Qed.

Lemma fold_max_poisoned t :
  forall h, h = NaN \/ In NaN t -> fold_left Float.max t h = NaN.
Proof.
  induction t as [|v t IH]; intros h [->|Hin].
  - reflexivity.
  - contradiction.
  - apply fold_max_NaN.
  - cbn [fold_left]. apply IH. destruct Hin as [Ev|Hin].
    + left. rewrite Ev. apply max_NaN_r.
    + now right.
Qed.

Lemma amax_NaN row : In NaN row -> amax row = NaN.
Proof.
  destruct row as [|h t]; [contradiction|]. intros [->|Hin]; unfold amax.
  - apply fold_max_poisoned. now left.
  - apply fold_max_poisoned. now right.
Qed.

Lemma fold_max_NInf t :
  Forall (eq NInf) t -> fold_left Float.max t NInf = NInf.
Proof. induction 1 as [|v t <- _ IH]; [reflexivity|exact IH]. Qed.

Lemma amax_all_NInf row :
  row <> [] -> Forall (eq NInf) row -> amax row = NInf.
Proof.
  destruct row as [|h t]; [contradiction|]. intros _ H.
  inversion H as [|? ? <- Ht]; subst. now apply fold_max_NInf.
Qed.

Lemma dot_NaN_head r v col : dot (NaN :: r) (v :: col) = NaN.
Proof. unfold dot, fsum. simpl. apply fold_add_NaN. Qed.

(** A row with a NaN, or with nothing but minus infinity, gives NaN
    against every non-empty column of its length. *)
Lemma shifted_entry_poisoned row col :
  In NaN row \/ Forall (eq NInf) row ->
  row <> [] -> length col = length row ->
  shifted_entry row col = NaN.
Proof.
  intros [Hnan|Hinf] Hne Hlen; unfold shifted_entry.
  - rewrite (amax_NaN _ Hnan). now rewrite add_NaN_r.
  - rewrite (amax_all_NInf Hne Hinf).
    destruct row as [|h row]; [contradiction|].
    destruct col as [|v col]; [discriminate|].
    inversion Hinf as [|? ? <- _]; subst. cbn [map].
    change (Float.exp (Float.sub NInf NInf)) with NaN.
    now rewrite dot_NaN_head.
Qed.

End PoisonedRows.

(** X21. A row of [x] that holds a NaN, or nothing but minus infinity,
    turns the whole corresponding row of [logmatmulexp x y] into NaN. *)
Theorem logmatmulexp_poisoned_row (n a b c : nat) (x y : array3)
  (i j : nat) :
  has_shape n a b x -> has_shape n b c y -> 0 < b ->
  i < n -> j < a ->
  In NaN (nth j (nth i x []) []) \/
  Forall (eq NInf) (nth j (nth i x []) []) ->
  exists z,
    logmatmulexp x y = Ok z /\
    forall l, l < c -> entry z i j l = NaN.
Proof.
  intros Hx Hy Hb Hi Hj Hrow.
  eexists. split; [apply (logmatmulexp_shaped Hx Hy Hb)|].
  intros l Hl. unfold entry.
  pose proof Hx as [Hnx _]. pose proof Hy as [Hny _].
  rewrite nth_map_combine with (d1 := [] : matrix) (d2 := [] : matrix) by lia.
  cbn [fst snd].
  destruct (shape_nth Hx Hi) as [Ha Hxrows].
  destruct (shape_nth Hy Hi) as [Hby Hyrows].
  destruct (shaped_rectangular Hby Hb Hyrows) as [Hc Hrect].
  rewrite logmatmulexp_entries, Hc by assumption.
  rewrite nth_indep
    with (d' := (fun row =>
                   map (fun j0 => shifted_entry row (column j0 (nth i y [])))
                     (seq 0 c)) [])
    by (rewrite length_map; lia).
  rewrite (map_nth (fun row =>
                      map (fun j0 => shifted_entry row
                                       (column j0 (nth i y [])))
                        (seq 0 c))).
  rewrite nth_map_seq by assumption.
  assert (length (nth j (nth i x []) []) = b) as Hrl.
  { rewrite Forall_forall in Hxrows. apply Hxrows, nth_In. lia. }
  apply shifted_entry_poisoned; [assumption| |].
  - intros E. rewrite E in Hrl. simpl in Hrl. lia.
  - now rewrite column_length, Hby, Hrl.
Qed.

Lemma logmatmulexp_poisoned_row_witness :
  exists z,
    logmatmulexp [[[NInf; NInf]; [Fin 0; NaN]]] [ones] = Ok z /\
    forall l, l < 2 -> entry z 0 0 l = NaN.
Proof.
  apply (@logmatmulexp_poisoned_row 1 2 2 2
           [[[NInf; NInf]; [Fin 0; NaN]]] [ones] 0 0).
  - split; [reflexivity|repeat constructor].
  - split; [reflexivity|repeat constructor].
  - lia.
  - lia.
  - lia.
  - right. repeat constructor.
Defined.
